(** * Hangul composer of hangulize (package [jamo]) and the English
      dictionary transliterator (package [english])

    A shallow embedding of the two Go packages and the properties their
    specification states about them.

    Conventions.
    - A Go [rune] (int32) is a [Z]; the code only compares runes, so no
      wrap-around arises.
    - A Go string is read through [bufio.Reader.ReadRune] and built with
      [bytes.Buffer.WriteRune]; it is modelled as the sequence of its
      runes ([list rune]): the input as the runes that [ReadRune] yields,
      the output as the runes given to [WriteRune].
    - The imported package [github.com/suapapa/go_hangul] is not part of
      the repository.  The composer is defined over an interface
      ([hangul.Package]) holding the five functions it calls, theorems
      state what they assume of those functions, and [hangul.model] is an
      implementation following the specification's description of the
      classifier and of the offset arithmetic. *)

From Stdlib Require Import ZArith Lia List Bool String Ascii.
From stdpp Require Import base option list gmap.
Import ListNotations.

Local Open Scope Z_scope.

Definition rune : Type := Z.

(** The three characters the composer names: the tail marker ['-'], the
    null-onset consonant U+3147 and the filler vowel U+3161. *)
Definition hyphen : rune := 45.
Definition ieung : rune := 0x3147.
Definition eu : rune := 0x3161.

(** ** String literals

    [runes s] decodes the UTF-8 bytes of a literal the way [ReadRune] does
    (a byte that starts no well-formed sequence yields U+FFFD and is
    skipped alone).  It is used to write inputs and outputs readably. *)

Definition RuneError : rune := 0xFFFD.

Definition cont (b : Z) : bool := (0x80 <=? b) && (b <? 0xC0).

Fixpoint decode (bs : list Z) : list rune :=
  match bs with
  | [] => []
  | b0 :: bs1 =>
    if b0 <? 0x80 then b0 :: decode bs1
    else
      match bs1 with
      | b1 :: bs2 =>
        if (0xC2 <=? b0) && (b0 <? 0xE0) && cont b1 then
          Z.lor (Z.shiftl (Z.land b0 0x1F) 6) (Z.land b1 0x3F) :: decode bs2
        else
          match bs2 with
          | b2 :: bs3 =>
            let r3 := Z.lor (Z.shiftl (Z.land b0 0x0F) 12)
                        (Z.lor (Z.shiftl (Z.land b1 0x3F) 6) (Z.land b2 0x3F)) in
            if (0xE0 <=? b0) && (b0 <? 0xF0) && cont b1 && cont b2
               && (0x800 <=? r3) && negb ((0xD800 <=? r3) && (r3 <? 0xE000))
            then r3 :: decode bs3
            else
              match bs3 with
              | b3 :: bs4 =>
                let r4 := Z.lor (Z.shiftl (Z.land b0 0x07) 18)
                            (Z.lor (Z.shiftl (Z.land b1 0x3F) 12)
                               (Z.lor (Z.shiftl (Z.land b2 0x3F) 6) (Z.land b3 0x3F))) in
                if (0xF0 <=? b0) && (b0 <? 0xF5) && cont b1 && cont b2 && cont b3
                   && (0x10000 <=? r4) && (r4 <? 0x110000)
                then r4 :: decode bs4
                else RuneError :: decode bs1
              | [] => RuneError :: decode bs1
              end
          | [] => RuneError :: decode bs1
          end
      | [] => [RuneError]
      end
  end.

Definition runes (s : string) : list rune :=
  decode (map (fun a => Z.of_nat (nat_of_ascii a)) (list_ascii_of_string s)).

(** ** The imported package [hangul]

    What the composer calls: three classifiers, [Split] and [Join]. *)

Module hangul.

Class Package := {
  IsHangul : rune -> bool;
  IsJaeum : rune -> bool;
  IsMoeum : rune -> bool;
  Split : rune -> rune * rune * rune;
  Join : rune -> rune -> rune -> rune
}.

(** *** Hangul in Unicode

    The precomposed syllables are U+AC00..U+D7A3, numbered
    [(lead * 21 + vowel) * 28 + tail] from U+AC00.  The tables list the
    compatibility Jamo (U+3131..U+3163) of the 19 leads, the 21 vowels and
    the 27 tails in index order; tail index 0 is "no tail", rune 0. *)

Definition is_syllable (ch : rune) : bool := (0xAC00 <=? ch) && (ch <=? 0xD7A3).

Definition syllable (li vi ti : Z) : rune := 0xAC00 + (li * 21 + vi) * 28 + ti.

Definition leads : list rune :=
  [0x3131; 0x3132; 0x3134; 0x3137; 0x3138; 0x3139; 0x3141; 0x3142; 0x3143;
   0x3145; 0x3146; 0x3147; 0x3148; 0x3149; 0x314A; 0x314B; 0x314C; 0x314D;
   0x314E].

Definition vowels : list rune :=
  [0x314F; 0x3150; 0x3151; 0x3152; 0x3153; 0x3154; 0x3155; 0x3156; 0x3157;
   0x3158; 0x3159; 0x315A; 0x315B; 0x315C; 0x315D; 0x315E; 0x315F; 0x3160;
   0x3161; 0x3162; 0x3163].

Definition tails : list rune :=
  [0; 0x3131; 0x3132; 0x3133; 0x3134; 0x3135; 0x3136; 0x3137; 0x3139; 0x313A;
   0x313B; 0x313C; 0x313D; 0x313E; 0x313F; 0x3140; 0x3141; 0x3142; 0x3144;
   0x3145; 0x3146; 0x3147; 0x3148; 0x314A; 0x314B; 0x314C; 0x314D; 0x314E].

Definition lead_jamo (i : Z) : rune := nth (Z.to_nat i) leads 0.
Definition vowel_jamo (i : Z) : rune := nth (Z.to_nat i) vowels 0.
Definition tail_jamo (i : Z) : rune := nth (Z.to_nat i) tails 0.

(** The compatibility-Jamo blocks of the consonants and of the vowels. *)
Definition is_consonant (ch : rune) : bool := (0x3131 <=? ch) && (ch <=? 0x314E).
Definition is_vowel (ch : rune) : bool := (0x314F <=? ch) && (ch <=? 0x3163).

(** *** What the theorems assume of a package

    Each is a property of the five functions alone; a theorem names the
    ones it needs. *)

Section Laws.

Context (pkg : Package).

(** Compatibility consonants are Hangul Jaeum and no Moeum; compatibility
    vowels are Hangul Moeum. *)
Definition classifies_jamo : Prop :=
  forall ch,
    (is_consonant ch = true ->
     IsHangul ch = true /\ IsJaeum ch = true /\ IsMoeum ch = false) /\
    (is_vowel ch = true -> IsHangul ch = true /\ IsMoeum ch = true).

(** Precomposed syllables are Hangul, neither Jaeum nor Moeum. *)
Definition classifies_syllables : Prop :=
  forall ch, is_syllable ch = true ->
    IsHangul ch = true /\ IsJaeum ch = false /\ IsMoeum ch = false.

(** [Split] reports the lead [ieung] for precomposed syllables only. *)
Definition splits_only_syllables : Prop :=
  forall ch, is_syllable ch = false -> fst (fst (Split ch)) <> ieung.

(** [Split] names the parts of a precomposed syllable by their
    compatibility Jamo, found by the offset arithmetic. *)
Definition splits_to_compat : Prop :=
  forall ch, is_syllable ch = true ->
    Split ch = (lead_jamo ((ch - 0xAC00) / (28 * 21)),
                vowel_jamo (((ch - 0xAC00) / 28) mod 21),
                tail_jamo ((ch - 0xAC00) mod 28)).

(** [Join] undoes [Split] on a precomposed syllable, whose lead and medial
    parts are never the zero rune. *)
Definition joins_split : Prop :=
  forall ch, is_syllable ch = true ->
    fst (fst (Split ch)) <> 0 /\ snd (fst (Split ch)) <> 0 /\
    Join (fst (fst (Split ch))) (snd (fst (Split ch))) (snd (Split ch)) = ch.

(** [Join] of compatibility Jamo is the offset formula. *)
Definition joins_compat : Prop :=
  forall li vi ti, 0 <= li < 19 -> 0 <= vi < 21 -> 0 <= ti < 28 ->
    Join (lead_jamo li) (vowel_jamo vi) (tail_jamo ti) = syllable li vi ti.

(** [Join] never yields the hyphen. *)
Definition join_not_hyphen : Prop := forall l m t, Join l m t <> hyphen.

End Laws.

(** Position of [ch] in a table, 0 when it is not there. *)
Fixpoint index_of (ch : rune) (table : list rune) : Z :=
  match table with
  | [] => 0
  | x :: table' => if x =? ch then 0 else
                     if existsb (Z.eqb ch) table' then 1 + index_of ch table' else 0
  end.

(** Modelled from the spec: the functions of the imported package
    [go_hangul], which is not among the repository's files.  The
    classifier goes by Unicode block (precomposed syllables, compatibility
    consonants U+3131..U+314E, compatibility vowels U+314F..U+3163);
    [Split] decomposes a precomposed syllable by the offset arithmetic and
    names the three parts by their compatibility Jamo, the form in which
    the composer compares the lead with [ieung]; [Join] is the inverse
    formula.  The specification leaves [Split] outside the syllable block
    and [Join] outside the tables open: here the first yields three zero
    runes and the second reads an unknown Jamo as index 0. *)
Definition model : Package := {|
  IsHangul ch :=
    is_syllable ch || ((0x3131 <=? ch) && (ch <=? 0x314E))
    || ((0x314F <=? ch) && (ch <=? 0x3163));
  IsJaeum ch := (0x3131 <=? ch) && (ch <=? 0x314E);
  IsMoeum ch := (0x314F <=? ch) && (ch <=? 0x3163);
  Split ch :=
    if is_syllable ch then
      let i := ch - 0xAC00 in
      (lead_jamo (i / (28 * 21)), vowel_jamo ((i / 28) mod 21), tail_jamo (i mod 28))
    else (0, 0, 0);
  Join l m t := syllable (index_of l leads) (index_of m vowels) (index_of t tails)
|}.

End hangul.

(** ** Package [jamo] *)

Module jamo.

Definition lead : Z := 0.
Definition medial : Z := 1.
Definition tail : Z := 2.

(** [[3]rune]: the buffered Jamos, indexed by [lead], [medial], [tail].
    The zero rune means that the slot is empty. *)
Record slots := Slots { s_lead : rune; s_medial : rune; s_tail : rune }.

Definition empty_slots : slots := Slots 0 0 0.

(** [a[i] = ch].  The loop indexes with the score of a Jamo, which is 0,
    1 or 2 (lemma [jamo_score_range]); another index, on which Go panics,
    leaves the array as it is. *)
Definition set (a : slots) (i : Z) (ch : rune) : slots :=
  if i =? lead then Slots ch (s_medial a) (s_tail a)
  else if i =? medial then Slots (s_lead a) ch (s_tail a)
  else if i =? tail then Slots (s_lead a) (s_medial a) ch
  else a.

Definition is_empty (a : slots) : bool :=
  (s_lead a =? 0) && (s_medial a =? 0) && (s_tail a =? 0).

(** [composer]: the reader [r] (the runes not yet read), the output buffer
    [buf] and the buffered Jamos [lmt]. *)
Record composer := Composer { r : list rune; buf : list rune; lmt : slots }.

Inductive error := EOF.

(** [read]: consumes one character, skipping hyphens; the flag tells
    whether a hyphen came before it.  At the end of the input the result
    is [(0, false, err)], whatever was skipped. *)
Fixpoint read_runes (isTail : bool) (rs : list rune)
  : rune * bool * option error * list rune :=
  match rs with
  | [] => (0, false, Some EOF, [])
  | ch :: rs' =>
    if ch =? hyphen then read_runes true rs' else (ch, isTail, None, rs')
  end.

Definition read (c : composer) : rune * bool * option error * composer :=
  let '(ch, isTail, err, rs) := read_runes false (r c) in
  (ch, isTail, err, Composer rs (buf c) (lmt c)).

Inductive flow := Continue | Break.

(** The local variables of [Compose] that live across iterations. *)
Record locals := Locals { score : Z; prevScore : Z }.

Section Composer.

Context {pkg : hangul.Package}.

(** [write]: writes a composed Hangul from the buffered Jamos into the
    output buffer. *)
Definition write (c : composer) : composer :=
  if is_empty (lmt c) then c
  else
    let l := if s_lead (lmt c) =? 0 then ieung else s_lead (lmt c) in
    let m := if s_medial (lmt c) =? 0 then eu else s_medial (lmt c) in
    let letter := hangul.Join l m (s_tail (lmt c)) in
    Composer (r c) (buf c ++ [letter]) empty_slots.

(** [analyzeHangul]: [(isHangul, isJaeum, isMoeum, isComposed)]. *)
Definition analyzeHangul (ch : rune) : bool * bool * bool * bool :=
  if negb (hangul.IsHangul ch) then (false, false, false, false)
  else
    let isJaeum := hangul.IsJaeum ch in
    let isMoeum := hangul.IsMoeum ch in
    (true, isJaeum, isMoeum, negb isJaeum && negb isMoeum).

(** The smart-attach check at the head of the loop body: with a lead
    buffered and no medial, a character whose [Split] has the lead [ieung]
    gives its medial and tail to the buffer. *)
Definition smart_attach (c : composer) (ch : rune) : option composer :=
  if negb (s_lead (lmt c) =? 0) && (s_medial (lmt c) =? 0) then
    let '(ld, md, tl) := hangul.Split ch in
    if ld =? ieung then Some (Composer (r c) (buf c) (Slots (s_lead (lmt c)) md tl))
    else None
  else None.

(** One pass through the body of the [for] loop of [Compose], from the
    values [v] of [score] and [prevScore] at its head: whether the loop
    goes on, the composer and the two variables after the pass. *)
Definition iteration (c : composer) (v : locals) : flow * composer * locals :=
  let prevScore := score v in
  let '(ch, isTail, err, c) := read c in
  match smart_attach c ch with
  | Some c => (Continue, c, Locals (score v) prevScore)
  | None =>
    match err with
    | Some _ => (Break, c, Locals (score v) prevScore)
    | None =>
      let '(isHangul, _, isMoeum, isComposed) := analyzeHangul ch in
      if negb isHangul then
        let c := if negb (prevScore =? -1) then write c else c in
        let c := Composer (r c) (buf c ++ [ch]) (lmt c) in
        (Continue, c, Locals (score v) (-1))
      else if isComposed then
        let '(ld, md, tl) := hangul.Split ch in
        let c :=
          if negb (s_lead (lmt c) =? 0) && (s_medial (lmt c) =? 0) && (ld =? ieung)
          then Composer (r c) (buf c) (Slots (s_lead (lmt c)) md tl)
          else
            let c := write c in
            Composer (r c) (buf c) (Slots ld md tl) in
        (Continue, c, Locals tail prevScore)
      else
        let score := if isMoeum then medial else if isTail then tail else lead in
        let c :=
          if score <=? prevScore then
            if negb ((score =? tail) && (prevScore =? medial)
                     && (s_tail (lmt c) =? 0))
            then write c else c
          else c in
        let c :=
          if negb (score =? -1) then Composer (r c) (buf c) (set (lmt c) score ch)
          else c in
        (Continue, c, Locals score prevScore)
    end
  end.

(** The [for] loop, run for at most [fuel] iterations: [None] when the
    loop has not reached its [break] by then. *)
Fixpoint loop (fuel : nat) (c : composer) (v : locals) : option (composer * locals) :=
  match fuel with
  | O => None
  | S fuel' =>
    match iteration c v with
    | (Break, c', v') => Some (c', v')
    | (Continue, c', v') => loop fuel' c' v'
    end
  end.

(** [Compose]: the loop from [score = prevScore = 0], then the final
    letter, then the contents of the output buffer. *)
Definition Compose (fuel : nat) (c : composer) : option (list rune) :=
  match loop fuel c (Locals 0 0) with
  | None => None
  | Some (c, v) =>
    let c := if negb (prevScore v =? -1) then write c else c in
    Some (buf c)
  end.

(** [ComposeHangul].  An iteration that does not end the loop either
    consumes a rune or is the one smart attach at the end of the input, so
    [length word + 2] iterations are enough whenever the loop ends at all
    (lemma [loop_fuel_enough]); [None] stands for a loop that never ends. *)
Definition ComposeHangul (word : list rune) : option (list rune) :=
  Compose (length word + 2) (Composer word [] empty_slots).

(** What a flush of the slots [a] appends to the output. *)
Definition pending (a : slots) : list rune := buf (write (Composer [] [] a)).

(** The fill score of a decomposed Jamo. *)
Definition jamo_score (isMoeum isTail : bool) : Z :=
  if isMoeum then medial else if isTail then tail else lead.

(** The flush decision of the decomposed-Jamo branch, as the code writes it. *)
Definition flushes (s prev : Z) (a : slots) : bool :=
  (s <=? prev) && negb ((s =? tail) && (prev =? medial) && (s_tail a =? 0)).

(** Every pass through the loop body is one of the five cases. *)
Inductive step (c : composer) (v : locals) : flow * composer * locals -> Prop :=
| step_attach ch isTail err c1 c2 :
    read c = (ch, isTail, err, c1) -> smart_attach c1 ch = Some c2 ->
    step c v (Continue, c2, Locals (score v) (score v))
| step_eof ch isTail e c1 :
    read c = (ch, isTail, Some e, c1) -> smart_attach c1 ch = None ->
    step c v (Break, c1, Locals (score v) (score v))
| step_other ch isTail c1 :
    read c = (ch, isTail, None, c1) -> smart_attach c1 ch = None ->
    hangul.IsHangul ch = false ->
    step c v
      (Continue,
       Composer (r c1)
         (buf (if negb (score v =? -1) then write c1 else c1) ++ [ch])
         (lmt (if negb (score v =? -1) then write c1 else c1)),
       Locals (score v) (-1))
| step_composed ch isTail c1 :
    read c = (ch, isTail, None, c1) -> smart_attach c1 ch = None ->
    hangul.IsHangul ch = true -> hangul.IsJaeum ch = false ->
    hangul.IsMoeum ch = false ->
    step c v
      (Continue,
       Composer (r c1) (buf c1 ++ pending (lmt c1))
         (Slots (fst (fst (hangul.Split ch))) (snd (fst (hangul.Split ch)))
                (snd (hangul.Split ch))),
       Locals tail (score v))
| step_jamo ch isTail c1 :
    read c = (ch, isTail, None, c1) -> smart_attach c1 ch = None ->
    hangul.IsHangul ch = true ->
    hangul.IsJaeum ch = true \/ hangul.IsMoeum ch = true ->
    step c v
      (Continue,
       Composer (r (if flushes (jamo_score (hangul.IsMoeum ch) isTail) (score v) (lmt c1)
                    then write c1 else c1))
         (buf (if flushes (jamo_score (hangul.IsMoeum ch) isTail) (score v) (lmt c1)
               then write c1 else c1))
         (set (lmt (if flushes (jamo_score (hangul.IsMoeum ch) isTail) (score v) (lmt c1)
                    then write c1 else c1))
              (jamo_score (hangul.IsMoeum ch) isTail) ch),
       Locals (jamo_score (hangul.IsMoeum ch) isTail) (score v)).

(** The end of [Compose], after the loop. *)
Definition finish (x : option (composer * locals)) : option (list rune) :=
  match x with
  | None => None
  | Some (c, v) => Some (buf (if negb (prevScore v =? -1) then write c else c))
  end.

(** The runes of a text that are not Hangul. *)
Definition others (rs : list rune) : list rune :=
  List.filter (fun ch => negb (hangul.IsHangul ch)) rs.

(** A rune as [read] returns it, its tail flag cleared unless the rune is
    a Jaeum and no Moeum, the one case in which [Compose] looks at the
    flag. *)
Definition marked (x : rune * bool) : rune * bool :=
  (fst x,
   snd x && hangul.IsHangul (fst x) && hangul.IsJaeum (fst x)
     && negb (hangul.IsMoeum (fst x))).

End Composer.

(** The input without its hyphens. *)
Definition strip (rs : list rune) : list rune :=
  List.filter (fun ch => negb (ch =? hyphen)) rs.

(** What the calls of [read] return one after another until the end of
    the input: the runes that are no hyphens, each with its tail flag. *)
Fixpoint tokens_from (isTail : bool) (rs : list rune) : list (rune * bool) :=
  match rs with
  | [] => []
  | ch :: rs' =>
    if ch =? hyphen then tokens_from true rs' else (ch, isTail) :: tokens_from false rs'
  end.

Definition tokens (rs : list rune) : list (rune * bool) := tokens_from false rs.

(** *** Decomposed Jamo input

    A syllable spelled in Jamo is a consonant, a vowel and, optionally, a
    hyphen and a consonant; [(L, V, 0)] spells the syllable without tail. *)

Definition spelled (s : rune * rune * rune) : Prop :=
  let '(L, V, T) := s in
  hangul.is_consonant L = true /\ hangul.is_vowel V = true /\
  (T = 0 \/ hangul.is_consonant T = true).

Definition spell (s : rune * rune * rune) : list rune :=
  let '(L, V, T) := s in L :: V :: (if T =? 0 then [] else [hyphen; T]).

(** *** Standard words

    A standard syllable is a triple of a lead, a vowel and a tail index;
    its decomposed form is written in compatibility Jamo, the tail after
    a hyphen; its precomposed form is one rune. *)

Definition standard (s : Z * Z * Z) : Prop :=
  let '(li, vi, ti) := s in 0 <= li < 19 /\ 0 <= vi < 21 /\ 0 <= ti < 28.

Definition decomposed_syllable (s : Z * Z * Z) : list rune :=
  let '(li, vi, ti) := s in
  hangul.lead_jamo li :: hangul.vowel_jamo vi
    :: (if ti =? 0 then [] else [hyphen; hangul.tail_jamo ti]).

Definition decomposed (word : list (Z * Z * Z)) : list rune :=
  flat_map decomposed_syllable word.

Definition precomposed (word : list (Z * Z * Z)) : list rune :=
  map (fun '(li, vi, ti) => hangul.syllable li vi ti) word.

Definition jamo_of (s : Z * Z * Z) : rune * rune * rune :=
  let '(li, vi, ti) := s in
  (hangul.lead_jamo li, hangul.vowel_jamo vi, hangul.tail_jamo ti).

End jamo.

(** ** Package [english] *)

Module english.

(** The functions of Go's [strings] that [Transliterate] calls, on rune
    sequences.  [unicode.IsSpace] and [strings.ToLower] go by Unicode's
    tables and are taken as they come. *)
Section Strings.

Variable IsSpace : rune -> bool.

(** [strings.Fields]: the maximal runs of runes that are not spaces. *)
Fixpoint fields (field s : list rune) : list (list rune) :=
  match s with
  | [] => match field with [] => [] | _ => [field] end
  | ch :: s' =>
    if IsSpace ch then
      match field with [] => fields [] s' | _ => field :: fields [] s' end
    else fields (field ++ [ch]) s'
  end.

Definition Fields (s : list rune) : list (list rune) := fields [] s.

(** [strings.Trim]: drops the leading and the trailing runes that are in
    [cutset]. *)
Fixpoint TrimLeft (s cutset : list rune) : list rune :=
  match s with
  | [] => []
  | ch :: s' => if existsb (Z.eqb ch) cutset then TrimLeft s' cutset else s
  end.

Definition TrimRight (s cutset : list rune) : list rune :=
  rev (TrimLeft (rev s) cutset).

Definition Trim (s cutset : list rune) : list rune :=
  TrimRight (TrimLeft s cutset) cutset.

(** [strings.Join]. *)
Fixpoint Join (elems : list (list rune)) (sep : list rune) : list rune :=
  match elems with
  | [] => []
  | [e] => e
  | e :: elems' => e ++ sep ++ Join elems' sep
  end.

End Strings.

Inductive error := Err (msg : list rune).

(** The package variables [dict] and [once] ([true]: the function given
    to [once.Do] has run). *)
Record globals := Globals { dict : gmap (list rune) (list rune); once : bool }.

(** The punctuation that [Transliterate] trims off a word: . , ! ? ; :
    the double quote, the single quote, ( and ). *)
Definition cutset : list rune := [46; 44; 33; 63; 59; 58; 34; 39; 40; 41].

Section Transliterate.

Variable IsSpace : rune -> bool.
Variable ToLower : list rune -> list rune.

(** The map that [loadDictionary] returns for the embedded
    [cmudict.dict], a file that is not among the repository's. *)
Variable loaded : gmap (list rune) (list rune).

(** [once.Do]: loads the dictionary the first time. *)
Definition load (g : globals) : globals :=
  if once g then g else Globals loaded true.

(** [Transliterate]: the phonetic representation of each field of [word]
    that the dictionary knows, the field itself otherwise, joined by
    single spaces; the error is always [nil]. *)
Definition Transliterate (g : globals) (word : list rune)
  : list rune * option error * globals :=
  let g := load g in
  let words := Fields IsSpace word in
  let result :=
    fold_left
      (fun result w =>
         let cleanWord := ToLower (Trim w cutset) in
         match dict g !! cleanWord with
         | Some phonetic => result ++ [phonetic]
         | None => result ++ [w]
         end)
      words [] in
  (Join result [32], None, g).

End Transliterate.

(** A white-space test and a lower-casing for plain ASCII text. *)
Definition ascii_space (ch : rune) : bool :=
  (ch =? 32) || ((9 <=? ch) && (ch <=? 13)).

Definition ascii_lower (s : list rune) : list rune :=
  map (fun ch => if (65 <=? ch) && (ch <=? 90) then ch + 32 else ch) s.

(** *** Loading the dictionary *)

(** [strings.HasPrefix]. *)
Fixpoint HasPrefix (s prefix : list rune) : bool :=
  match prefix, s with
  | [], _ => true
  | p :: prefix', ch :: s' => (ch =? p) && HasPrefix s' prefix'
  | _ :: _, [] => false
  end.

(** The text before and the text after the first [sep] in [s]. *)
Fixpoint Cut (s sep : list rune) : option (list rune * list rune) :=
  if HasPrefix s sep then Some ([], skipn (length sep) s)
  else
    match s with
    | [] => None
    | ch :: s' =>
      match Cut s' sep with
      | Some (before, after) => Some (ch :: before, after)
      | None => None
      end
    end.

(** [strings.SplitN(s, sep, 2)] for a separator that is not empty: [s]
    alone when it holds no [sep], else the two parts around the first. *)
Definition SplitN2 (s sep : list rune) : list (list rune) :=
  match Cut s sep with
  | Some (before, after) => [before; after]
  | None => [s]
  end.

(** [strings.NewReplacer("0", "", "1", "", "2", "", " ", "").Replace]:
    drops the stress digits 0, 1, 2 and the spaces. *)
Definition stressless (ch : rune) : bool :=
  negb ((ch =? 48) || (ch =? 49) || (ch =? 50) || (ch =? 32)).

Definition Replace (pron : list rune) : list rune := List.filter stressless pron.

Section LoadDictionary.

Variable ToLower : list rune -> list rune.

(** What [loadDictionary] does with one line of the reader. *)
Definition add_line (dict : gmap (list rune) (list rune)) (line : list rune)
  : gmap (list rune) (list rune) :=
  if HasPrefix line [59; 59; 59] then dict
  else
    match SplitN2 line [32; 32] with
    | [word; pron] => <[ToLower word := Replace pron]> dict
    | _ => dict
    end.

(** [loadDictionary].  The [bufio.Scanner] over the reader is Go's: it is
    taken as the lines that [Scan] and [Text] deliver, in order, and the
    error [scanner.Err()] that it ends with. *)
Definition loadDictionary (lines : list (list rune)) (scanErr : option error)
  : gmap (list rune) (list rune) * option error :=
  (fold_left add_line lines ∅, scanErr).

End LoadDictionary.

(** [Scheme]. *)
Definition Scheme : list rune := runes "english".

(** What [Transliterate] appends for one field: its phonetic
    representation, or the field itself. *)
Definition field_result (ToLower : list rune -> list rune)
    (dict : gmap (list rune) (list rune)) (w : list rune) : list rune :=
  match dict !! ToLower (Trim w cutset) with
  | Some phonetic => phonetic
  | None => w
  end.

End english.

(** * Properties *)

Import hangul jamo.

(** ** The model of [hangul] satisfies every law *)

Lemma joins_compat_at (pkg : Package) :
  joins_compat pkg ->
  forall li vi ti L V T,
    0 <= li < 19 -> 0 <= vi < 21 -> 0 <= ti < 28 ->
    L = lead_jamo li -> V = vowel_jamo vi -> T = tail_jamo ti ->
    Join L V T = syllable li vi ti.
Proof. intros H li vi ti L V T Hl Hv Ht -> -> ->. apply H; assumption. Qed.

Lemma below_nat (P : Z -> Prop) (n : nat) :
  (forall k : nat, (k < n)%nat -> P (Z.of_nat k)) ->
  forall i, 0 <= i < Z.of_nat n -> P i.
Proof.
  intros HP i Hi. rewrite <- (Z2Nat.id i) by lia. apply HP. lia.
Qed.

Ltac each_below n :=
  let k := fresh "k" in
  let Hk := fresh "Hk" in
  refine (below_nat _ n _); intros k Hk;
  do 28 (destruct k as [|k];
         [vm_compute; intuition congruence | try (exfalso; lia)]).

Lemma index_of_nonneg ch table : 0 <= index_of ch table.
Proof.
  induction table as [|x table IH]; simpl; [lia|].
  destruct (x =? ch); [lia|]. destruct (existsb _ _); lia.
Qed.

Lemma index_of_lead i : 0 <= i < 19 -> index_of (lead_jamo i) leads = i.
Proof. revert i. each_below 19%nat. Qed.

Lemma index_of_vowel i : 0 <= i < 21 -> index_of (vowel_jamo i) vowels = i.
Proof. revert i. each_below 21%nat. Qed.

Lemma index_of_tail i : 0 <= i < 28 -> index_of (tail_jamo i) tails = i.
Proof. revert i. each_below 28%nat. Qed.

Lemma lead_jamo_consonant i : 0 <= i < 19 -> is_consonant (lead_jamo i) = true.
Proof. revert i. each_below 19%nat. Qed.

Lemma vowel_jamo_vowel i : 0 <= i < 21 -> is_vowel (vowel_jamo i) = true.
Proof. revert i. each_below 21%nat. Qed.

Lemma tail_jamo_consonant i : 1 <= i < 28 -> is_consonant (tail_jamo i) = true.
Proof.
  intros Hi. assert (H : 0 <= i < 28) by lia. revert Hi. revert i H.
  each_below 28%nat.
Qed.

Lemma syllable_index ch :
  is_syllable ch = true ->
  0 <= (ch - 0xAC00) / (28 * 21) < 19 /\
  0 <= ((ch - 0xAC00) / 28) mod 21 < 21 /\
  0 <= (ch - 0xAC00) mod 28 < 28 /\
  syllable ((ch - 0xAC00) / (28 * 21)) (((ch - 0xAC00) / 28) mod 21)
           ((ch - 0xAC00) mod 28) = ch.
Proof.
  unfold is_syllable, syllable. intros H.
  apply andb_prop in H as [H1 H2]. apply Z.leb_le in H1, H2.
  set (i := ch - 0xAC00). assert (Hi : 0 <= i < 11172) by (unfold i; lia).
  change (28 * 21) with 588.
  pose proof (Z.div_mod i 28 ltac:(lia)) as E1.
  pose proof (Z.mod_pos_bound i 28 ltac:(lia)) as B1.
  pose proof (Z.div_mod (i / 28) 21 ltac:(lia)) as E2.
  pose proof (Z.mod_pos_bound (i / 28) 21 ltac:(lia)) as B2.
  assert (E3 : i / 588 = i / 28 / 21) by (rewrite Z.div_div by lia; reflexivity).
  assert (B3 : 0 <= i / 588 < 19).
  { split; [apply Z.div_pos; lia | apply Z.div_lt_upper_bound; lia]. }
  repeat split; try lia.
Qed.

Lemma model_classifies_jamo : classifies_jamo model.
Proof.
  intros ch. unfold is_consonant, is_vowel, is_syllable. simpl.
  unfold is_syllable. split; intros H; apply andb_prop in H as [H1 H2];
    apply Z.leb_le in H1, H2; repeat split;
    repeat match goal with
    | |- context [?a <=? ?b] => destruct (Z.leb_spec a b); try lia
    end; reflexivity.
Qed.

Lemma model_classifies_syllables : classifies_syllables model.
Proof.
  intros ch H. simpl. rewrite H. unfold is_syllable in H.
  apply andb_prop in H as [H1 H2]. apply Z.leb_le in H1, H2.
  repeat split;
    repeat match goal with
    | |- context [?a <=? ?b] => destruct (Z.leb_spec a b); try lia
    end; reflexivity.
Qed.

Lemma model_splits_only_syllables : splits_only_syllables model.
Proof. intros ch H. simpl. rewrite H. simpl. discriminate. Qed.

Lemma model_splits_to_compat : splits_to_compat model.
Proof. intros ch H. simpl. rewrite H. reflexivity. Qed.

Lemma model_joins_compat : joins_compat model.
Proof.
  intros li vi ti Hl Hv Ht. cbn [Join model].
  rewrite index_of_lead, index_of_vowel, index_of_tail by assumption.
  reflexivity.
Qed.

Lemma model_joins_split : joins_split model.
Proof.
  intros ch H. rewrite (model_splits_to_compat ch H). cbn [fst snd].
  destruct (syllable_index ch H) as (Hl & Hv & Ht & E).
  split; [|split].
  - pose proof (lead_jamo_consonant _ Hl) as C. unfold is_consonant in C.
    apply andb_prop in C as [C _]. apply Z.leb_le in C. lia.
  - pose proof (vowel_jamo_vowel _ Hv) as C. unfold is_vowel in C.
    apply andb_prop in C as [C _]. apply Z.leb_le in C. lia.
  - rewrite (model_joins_compat _ _ _ Hl Hv Ht). exact E.
Qed.

Lemma model_join_not_hyphen : join_not_hyphen model.
Proof.
  intros l m t. cbn [Join model]. unfold syllable, hyphen.
  pose proof (index_of_nonneg l leads). pose proof (index_of_nonneg m vowels).
  pose proof (index_of_nonneg t tails). lia.
Qed.

(** ** Reading *)

Lemma read_runes_rune b ch rs :
  ch <> hyphen -> read_runes b (ch :: rs) = (ch, b, None, rs).
Proof.
  intros H. simpl. destruct (Z.eqb_spec ch hyphen); [contradiction | reflexivity].
Qed.

Lemma strip_id rs : Forall (fun ch => ch <> hyphen) rs -> strip rs = rs.
Proof.
  unfold strip. induction 1 as [|ch rs Hch _ IH]; [reflexivity|].
  cbn [List.filter]. destruct (Z.eqb_spec ch hyphen); [contradiction|].
  cbn [negb]. rewrite IH. reflexivity.
Qed.

(** A read ends the input, or yields a rune that is no hyphen and leaves
    strictly less input; the hyphens it skipped are gone. *)
Lemma read_runes_spec b rs :
  (read_runes b rs = (0, false, Some EOF, []) /\ strip rs = []) \/
  (exists ch b' rs',
     read_runes b rs = (ch, b', None, rs') /\ ch <> hyphen /\
     (length rs' < length rs)%nat /\ strip rs = ch :: strip rs' /\
     exists skipped, rs = skipped ++ ch :: rs').
Proof.
  revert b. induction rs as [|x rs IH]; intros b; [left; split; reflexivity|].
  unfold strip in *. cbn [read_runes List.filter].
  destruct (Z.eqb_spec x hyphen) as [->|Hx]; cbn [negb].
  - destruct (IH true) as [[E S]|(ch & b' & rs' & E & Hch & Hlen & S & sk & Hsk)].
    + left. split; assumption.
    + right. exists ch, b', rs'. repeat split; try assumption.
      * simpl. lia.
      * exists (hyphen :: sk). rewrite Hsk. reflexivity.
  - right. exists x, b, rs. repeat split; try assumption.
    + simpl. lia.
    + exists (@nil rune). reflexivity.
Qed.

Lemma read_rune rs b a ch :
  ch <> hyphen ->
  read (Composer (ch :: rs) b a) = (ch, false, None, Composer rs b a).
Proof. intros H. unfold read. cbn [r]. rewrite read_runes_rune by assumption. reflexivity. Qed.

Lemma read_marked rs b a ch :
  ch <> hyphen ->
  read (Composer (hyphen :: ch :: rs) b a) = (ch, true, None, Composer rs b a).
Proof.
  intros H. unfold read. cbn [r]. change (read_runes false (hyphen :: ch :: rs))
    with (read_runes true (ch :: rs)).
  rewrite read_runes_rune by assumption. reflexivity.
Qed.

Lemma read_end b a : read (Composer [] b a) = (0, false, Some EOF, Composer [] b a).
Proof. reflexivity. Qed.

Lemma is_empty_true a : is_empty a = true -> a = empty_slots.
Proof.
  destruct a as [l m t]. unfold is_empty. cbn [s_lead s_medial s_tail].
  intros H. apply andb_prop in H as [H Ht]. apply andb_prop in H as [Hl Hm].
  apply Z.eqb_eq in Hl, Hm, Ht. subst. reflexivity.
Qed.

(** ** The loop body, case by case *)

Section Steps.

Context {pkg : hangul.Package}.

Lemma pending_empty : pending empty_slots = [].
Proof. reflexivity. Qed.

Lemma pending_filled a :
  is_empty a = false ->
  pending a = [hangul.Join (if s_lead a =? 0 then ieung else s_lead a)
                           (if s_medial a =? 0 then eu else s_medial a)
                           (s_tail a)].
Proof. intros H. unfold pending, write. cbn [lmt buf]. rewrite H. reflexivity. Qed.

Lemma pending_full l m t :
  l <> 0 -> m <> 0 -> pending (Slots l m t) = [hangul.Join l m t].
Proof.
  intros Hl Hm. rewrite pending_filled.
  - cbn [s_lead s_medial s_tail].
    destruct (Z.eqb_spec l 0); [contradiction|].
    destruct (Z.eqb_spec m 0); [contradiction|]. reflexivity.
  - unfold is_empty. cbn [s_lead]. destruct (Z.eqb_spec l 0); [contradiction|reflexivity].
Qed.

Lemma write_eq c : write c = Composer (r c) (buf c ++ pending (lmt c)) empty_slots.
Proof.
  unfold pending, write. cbn [lmt buf r]. destruct (is_empty (lmt c)) eqn:E.
  - rewrite app_nil_r. apply is_empty_true in E. destruct c as [rs b a].
    cbn [lmt] in E. subst. reflexivity.
  - reflexivity.
Qed.

Lemma smart_attach_no_lead c ch : s_lead (lmt c) = 0 -> smart_attach c ch = None.
Proof. intros H. unfold smart_attach. rewrite H. reflexivity. Qed.

Lemma smart_attach_medial c ch : s_medial (lmt c) <> 0 -> smart_attach c ch = None.
Proof.
  intros H. unfold smart_attach. destruct (Z.eqb_spec (s_medial (lmt c)) 0); [contradiction|].
  rewrite andb_false_r. reflexivity.
Qed.

Lemma smart_attach_other c ch :
  fst (fst (hangul.Split ch)) <> ieung -> smart_attach c ch = None.
Proof.
  intros H. unfold smart_attach. destruct (hangul.Split ch) as [[ld md] tl].
  cbn [fst] in H. destruct (Z.eqb_spec ld ieung); [contradiction|].
  destruct (_ && _); reflexivity.
Qed.

Lemma smart_attach_some c ch md tl :
  s_lead (lmt c) <> 0 -> s_medial (lmt c) = 0 ->
  hangul.Split ch = (ieung, md, tl) ->
  smart_attach c ch = Some (Composer (r c) (buf c) (Slots (s_lead (lmt c)) md tl)).
Proof.
  intros Hl Hm Hs. unfold smart_attach. rewrite Hs, Hm.
  destruct (Z.eqb_spec (s_lead (lmt c)) 0); [contradiction|]. reflexivity.
Qed.

Lemma smart_attach_inv c ch c' :
  smart_attach c ch = Some c' ->
  s_lead (lmt c) <> 0 /\ s_medial (lmt c) = 0 /\
  fst (fst (hangul.Split ch)) = ieung /\
  c' = Composer (r c) (buf c)
         (Slots (s_lead (lmt c)) (snd (fst (hangul.Split ch))) (snd (hangul.Split ch))).
Proof.
  unfold smart_attach. destruct (hangul.Split ch) as [[ld md] tl]. cbn [fst snd].
  destruct (Z.eqb_spec (s_lead (lmt c)) 0); cbn [negb andb]; [discriminate|].
  destruct (Z.eqb_spec (s_medial (lmt c)) 0); [|discriminate].
  destruct (Z.eqb_spec ld ieung); [|discriminate].
  intros [= <-]. auto.
Qed.

(** The smart attach comes first, whatever the read returned. *)
Lemma iteration_attach c v ch isTail err c1 c2 :
  read c = (ch, isTail, err, c1) -> smart_attach c1 ch = Some c2 ->
  iteration c v = (Continue, c2, Locals (score v) (score v)).
Proof. intros Hr Ha. unfold iteration. rewrite Hr, Ha. reflexivity. Qed.

(** The end of the input. *)
Lemma iteration_eof c v ch isTail e c1 :
  read c = (ch, isTail, Some e, c1) -> smart_attach c1 ch = None ->
  iteration c v = (Break, c1, Locals (score v) (score v)).
Proof. intros Hr Ha. unfold iteration. rewrite Hr, Ha. reflexivity. Qed.

(** A character that is not Hangul. *)
Lemma iteration_other c v ch isTail c1 :
  read c = (ch, isTail, None, c1) -> smart_attach c1 ch = None ->
  hangul.IsHangul ch = false ->
  iteration c v =
    (Continue,
     Composer (r c1)
       (buf (if negb (score v =? -1) then write c1 else c1) ++ [ch])
       (lmt (if negb (score v =? -1) then write c1 else c1)),
     Locals (score v) (-1)).
Proof.
  intros Hr Ha Hh. unfold iteration, analyzeHangul. rewrite Hr, Ha, Hh. cbn [negb].
  destruct (negb (score v =? -1)); rewrite ?write_eq; reflexivity.
Qed.

(** A composed syllable: the buffer is flushed and loaded with its parts
    (the merge of that branch needs what the smart attach has already
    taken). *)
Lemma iteration_composed c v ch isTail c1 :
  read c = (ch, isTail, None, c1) -> smart_attach c1 ch = None ->
  hangul.IsHangul ch = true -> hangul.IsJaeum ch = false ->
  hangul.IsMoeum ch = false ->
  iteration c v =
    (Continue,
     Composer (r c1) (buf c1 ++ pending (lmt c1))
       (Slots (fst (fst (hangul.Split ch))) (snd (fst (hangul.Split ch)))
              (snd (hangul.Split ch))),
     Locals tail (score v)).
Proof.
  intros Hr Ha Hh Hj Hm. unfold iteration, analyzeHangul.
  rewrite Hr, Ha, Hh, Hj, Hm. cbn [negb andb].
  unfold smart_attach in Ha. destruct (hangul.Split ch) as [[ld md] tl]. cbn [fst snd].
  destruct (negb (s_lead (lmt c1) =? 0) && (s_medial (lmt c1) =? 0)); cbn [andb].
  - destruct (ld =? ieung); [discriminate|]. rewrite write_eq. reflexivity.
  - rewrite write_eq. reflexivity.
Qed.

Lemma jamo_score_range isMoeum isTail :
  jamo_score isMoeum isTail = lead \/ jamo_score isMoeum isTail = medial \/
  jamo_score isMoeum isTail = tail.
Proof. destruct isMoeum, isTail; cbn; auto. Qed.

(** A decomposed Jamo. *)
Lemma iteration_jamo c v ch isTail c1 :
  read c = (ch, isTail, None, c1) -> smart_attach c1 ch = None ->
  hangul.IsHangul ch = true ->
  hangul.IsJaeum ch = true \/ hangul.IsMoeum ch = true ->
  let s := jamo_score (hangul.IsMoeum ch) isTail in
  let c2 := if flushes s (score v) (lmt c1) then write c1 else c1 in
  iteration c v =
    (Continue, Composer (r c2) (buf c2) (set (lmt c2) s ch), Locals s (score v)).
Proof.
  intros Hr Ha Hh Hjm s c2. unfold iteration, analyzeHangul. rewrite Hr, Ha, Hh.
  cbn [negb].
  assert (E : negb (hangul.IsJaeum ch) && negb (hangul.IsMoeum ch) = false).
  { destruct Hjm as [-> | ->]; [reflexivity | apply andb_false_r]. }
  rewrite E. fold (jamo_score (hangul.IsMoeum ch) isTail). fold s.
  assert (Hs : negb (s =? -1) = true).
  { unfold s, jamo_score. destruct (hangul.IsMoeum ch), isTail; reflexivity. }
  rewrite Hs. unfold c2, flushes.
  destruct (s <=? score v); cbn [andb]; [|reflexivity].
  destruct (negb _); reflexivity.
Qed.

(** The exception of the flush decision never changes it: a tail score
    is above a medial one. *)
Lemma flushes_leb s prev a : flushes s prev a = (s <=? prev).
Proof.
  unfold flushes, tail, medial.
  destruct (Z.leb_spec s prev); cbn [andb]; [|reflexivity].
  destruct (Z.eqb_spec s 2); cbn [andb]; [|reflexivity].
  destruct (Z.eqb_spec prev 1); cbn [andb]; [lia | reflexivity].
Qed.

Lemma iteration_step c v : step c v (iteration c v).
Proof.
  destruct (read c) as [[[ch isTail] err] c1] eqn:Hr.
  destruct (smart_attach c1 ch) as [c2|] eqn:Ha.
  { rewrite (iteration_attach _ _ _ _ _ _ _ Hr Ha). econstructor; eassumption. }
  destruct err as [e|].
  { rewrite (iteration_eof _ _ _ _ _ _ Hr Ha). econstructor; eassumption. }
  destruct (hangul.IsHangul ch) eqn:Hh.
  2:{ rewrite (iteration_other _ _ _ _ _ Hr Ha Hh). econstructor; eassumption. }
  destruct (hangul.IsJaeum ch) eqn:Hj.
  { rewrite (iteration_jamo _ _ _ _ _ Hr Ha Hh (or_introl Hj)).
    eapply step_jamo; eauto. }
  destruct (hangul.IsMoeum ch) eqn:Hm.
  { rewrite (iteration_jamo _ _ _ _ _ Hr Ha Hh (or_intror Hm)).
    rewrite Hm. pose proof (step_jamo c v ch isTail c1 Hr Ha Hh (or_intror Hm)) as S.
    rewrite Hm in S. exact S. }
  rewrite (iteration_composed _ _ _ _ _ Hr Ha Hh Hj Hm). econstructor; eassumption.
Qed.

(** What [read] does to the composer. *)
Lemma read_spec c ch isTail err c1 :
  read c = (ch, isTail, err, c1) ->
  buf c1 = buf c /\ lmt c1 = lmt c /\
  ((err = Some EOF /\ ch = 0 /\ isTail = false /\ r c1 = [] /\ strip (r c) = []) \/
   (err = None /\ ch <> hyphen /\ (length (r c1) < length (r c))%nat /\
    strip (r c) = ch :: strip (r c1))).
Proof.
  unfold read. intros H.
  destruct (read_runes_spec false (r c))
    as [[E S]|(ch' & b' & rs' & E & Hch & Hlen & S & _)];
    rewrite E in H; injection H as <- <- <- <-; cbn [buf lmt r]; auto 10.
Qed.

(** ** The loop *)

Lemma Compose_finish fuel c : Compose fuel c = finish (loop fuel c (Locals 0 0)).
Proof. unfold Compose, finish. destruct (loop _ _ _) as [[c' v']|]; reflexivity. Qed.

Lemma loop_continue n c v c' v' :
  iteration c v = (Continue, c', v') -> loop (S n) c v = loop n c' v'.
Proof. intros H. cbn [loop]. rewrite H. reflexivity. Qed.

Lemma loop_break n c v c' v' :
  iteration c v = (Break, c', v') -> loop (S n) c v = Some (c', v').
Proof. intros H. cbn [loop]. rewrite H. reflexivity. Qed.

(** More fuel does not change a result. *)
Lemma loop_mono n : forall m c v x,
  loop n c v = Some x -> (n <= m)%nat -> loop m c v = Some x.
Proof.
  induction n as [|n IH]; intros m c v x H Hle; [discriminate|].
  destruct m as [|m]; [lia|]. cbn [loop] in *.
  destruct (iteration c v) as [[[] c'] v']; [|assumption].
  apply IH; [assumption | lia].
Qed.

(** A pass that continues and changes nothing repeats for ever. *)
Lemma loop_stuck c v : iteration c v = (Continue, c, v) -> forall n, loop n c v = None.
Proof.
  intros H n. induction n as [|n IH]; [reflexivity|].
  rewrite (loop_continue _ _ _ _ _ H). exact IH.
Qed.

(** The loop needs no more than [length (r c) + 2] passes: if it ends with
    some fuel, it ends with that much, in the same state. *)
Lemma loop_fuel_enough n : forall c v x,
  loop n c v = Some x -> loop (length (r c) + 2) c v = Some x.
Proof.
  induction n as [|n IH]; intros c v x H; [discriminate|].
  replace (length (r c) + 2)%nat with (S (length (r c) + 1)) by lia.
  cbn [loop] in *. remember (iteration c v) as it eqn:Eit.
  pose proof (iteration_step c v) as S. rewrite <- Eit in S.
  assert (Hshort : forall c' v',
             it = (Continue, c', v') -> (length (r c') < length (r c))%nat ->
             loop (length (r c) + 1) c' v' = Some x).
  { intros c' v' -> Hlen. apply (loop_mono (length (r c') + 2)); [|lia].
    apply IH. exact H. }
  destruct S as [ch isTail err c1 c2 Hr Ha|ch isTail e c1 Hr Ha|ch isTail c1 Hr Ha Hh
                |ch isTail c1 Hr Ha Hh Hj Hm|ch isTail c1 Hr Ha Hh Hjm];
    try exact H;
    destruct (read_spec _ _ _ _ _ Hr) as (Hb & Hl & Hcase).
  - destruct (smart_attach_inv _ _ _ Ha) as (Hl1 & Hm1 & Hs & ->).
    destruct Hcase as [(-> & -> & -> & Hr1 & _)|(-> & _ & Hlen & _)].
    + set (c2 := Composer _ _ _) in *. set (v2 := Locals _ _) in *.
      destruct (Z.eq_dec (snd (fst (hangul.Split 0))) 0) as [Hmd|Hmd].
      * exfalso. assert (Hloop : iteration c2 v2 = (Continue, c2, v2)).
        { eapply iteration_attach; [unfold c2; rewrite Hr1; apply read_end|].
          unfold smart_attach. cbn [lmt s_lead s_medial r buf].
          destruct (hangul.Split 0) as [[ld md] tl]. cbn [fst snd] in *.
          subst ld md. destruct (Z.eqb_spec (s_lead (lmt c1)) 0); [contradiction|].
          cbn. unfold c2. rewrite Hr1. reflexivity. }
        rewrite (loop_stuck _ _ Hloop) in H. discriminate.
      * assert (Hbr : iteration c2 v2 = (Break, c2, Locals (score v2) (score v2))).
        { eapply iteration_eof; [unfold c2; rewrite Hr1; apply read_end|].
          apply smart_attach_medial. exact Hmd. }
        destruct n as [|n]; [discriminate|].
        rewrite (loop_break _ _ _ _ _ Hbr) in H.
        replace (length (r c) + 1)%nat with (S (length (r c))) by lia.
        rewrite (loop_break _ _ _ _ _ Hbr). exact H.
    + apply Hshort; [reflexivity | cbn [r]; exact Hlen].
  - destruct Hcase as [(E & _)|(_ & _ & Hlen & _)]; [discriminate|].
    apply Hshort; [reflexivity | cbn [r]; exact Hlen].
  - destruct Hcase as [(E & _)|(_ & _ & Hlen & _)]; [discriminate|].
    apply Hshort; [reflexivity | cbn [r]; exact Hlen].
  - destruct Hcase as [(E & _)|(_ & _ & Hlen & _)]; [discriminate|].
    apply Hshort; [reflexivity|]. cbn [r].
    destruct (flushes _ _ _); [rewrite write_eq|]; cbn [r]; exact Hlen.
Qed.

(** The scores stay within 0, 1 and 2. *)
Lemma iteration_score_range c v :
  0 <= score v <= 2 -> 0 <= score (snd (iteration c v)) <= 2.
Proof.
  intros Hv. destruct (iteration_step c v); cbn [snd score]; try assumption.
  - unfold tail. lia.
  - destruct (jamo_score_range (hangul.IsMoeum ch) isTail) as [-> | [-> | ->]];
      unfold lead, medial, tail; lia.
Qed.

(** With a [Split] that reports the lead [ieung] for syllables only, the
    loop ends within [length (r c) + 1] passes. *)
Lemma loop_terminates :
  hangul.splits_only_syllables pkg ->
  forall n c v, (length (r c) < n)%nat -> exists x, loop n c v = Some x.
Proof.
  intros Hout. induction n as [|n IH]; intros c v Hn; [lia|].
  cbn [loop]. remember (iteration c v) as it eqn:Eit.
  pose proof (iteration_step c v) as S. rewrite <- Eit in S.
  destruct S as [ch isTail err c1 c2 Hr Ha|ch isTail e c1 Hr Ha|ch isTail c1 Hr Ha Hh
                |ch isTail c1 Hr Ha Hh Hj Hm|ch isTail c1 Hr Ha Hh Hjm];
    try (eexists; reflexivity);
    destruct (read_spec _ _ _ _ _ Hr) as (Hb & Hl & Hcase).
  - destruct (smart_attach_inv _ _ _ Ha) as (_ & _ & Hs & ->).
    destruct Hcase as [(_ & -> & _)|(_ & _ & Hlen & _)].
    + exfalso. apply (Hout 0); [reflexivity | exact Hs].
    + apply IH. cbn [r]. lia.
  - destruct Hcase as [(E & _)|(_ & _ & Hlen & _)]; [discriminate|].
    apply IH. cbn [r]. lia.
  - destruct Hcase as [(E & _)|(_ & _ & Hlen & _)]; [discriminate|].
    apply IH. cbn [r]. lia.
  - destruct Hcase as [(E & _)|(_ & _ & Hlen & _)]; [discriminate|].
    apply IH. cbn [r]. destruct (flushes _ _ _); [rewrite write_eq|]; cbn [r]; lia.
Qed.

(** The passes keep hyphens out of the output buffer, given a [Join] that
    yields none. *)
Lemma iteration_no_hyphen c v fl c' v' :
  hangul.join_not_hyphen pkg ->
  iteration c v = (fl, c', v') ->
  Forall (fun ch => ch <> hyphen) (buf c) ->
  Forall (fun ch => ch <> hyphen) (buf c').
Proof.
  intros Hj E Hbuf.
  assert (Hw : forall c0, Forall (fun ch => ch <> hyphen) (buf c0) ->
                          Forall (fun ch => ch <> hyphen) (buf (write c0))).
  { intros c0 H0. unfold write. destruct (is_empty (lmt c0)); [exact H0|].
    cbn [buf]. apply Forall_app. split; [exact H0|].
    constructor; [apply Hj | constructor]. }
  enough (G : Forall (fun ch => ch <> hyphen) (buf (snd (fst (iteration c v)))))
    by (rewrite E in G; exact G).
  clear E.
  destruct (iteration_step c v)
    as [ch isTail err c1 c2 Hr Ha|ch isTail e c1 Hr Ha|ch isTail c1 Hr Ha Hh
       |ch isTail c1 Hr Ha Hh Hj' Hm|ch isTail c1 Hr Ha Hh Hjm];
    cbn [fst snd];
    destruct (read_spec _ _ _ _ _ Hr) as (Hb & Hl & Hcase);
    assert (H1 : Forall (fun ch => ch <> hyphen) (buf c1)) by (rewrite Hb; exact Hbuf).
  - destruct (smart_attach_inv _ _ _ Ha) as (_ & _ & _ & ->). exact H1.
  - exact H1.
  - destruct Hcase as [(E' & _)|(_ & Hch & _)]; [discriminate|].
    cbn [buf]. apply Forall_app. split.
    + destruct (negb _); [apply Hw|]; exact H1.
    + constructor; [exact Hch | constructor].
  - cbn [buf]. apply Forall_app. split; [exact H1|].
    apply (Hw (Composer [] [] _)). constructor.
  - cbn [buf]. destruct (flushes _ _ _); [apply Hw|]; exact H1.
Qed.

Lemma loop_no_hyphen :
  hangul.join_not_hyphen pkg ->
  forall n c v c' v',
    loop n c v = Some (c', v') ->
    Forall (fun ch => ch <> hyphen) (buf c) ->
    Forall (fun ch => ch <> hyphen) (buf c').
Proof.
  intros Hj. induction n as [|n IH]; intros c v c' v' H Hbuf; [discriminate|].
  cbn [loop] in H. destruct (iteration c v) as [[fl c1] v1] eqn:E.
  pose proof (iteration_no_hyphen _ _ _ _ _ Hj E Hbuf) as H1.
  destruct fl; [eapply IH; eassumption|]. injection H as <- <-. exact H1.
Qed.

(** Input without Hangul: the buffer stays empty and every rune read is
    copied to the output. *)
Lemma loop_other n : forall rs b v,
  Forall (fun ch => hangul.IsHangul ch = false) (strip rs) ->
  (length rs < n)%nat ->
  exists v', loop n (Composer rs b empty_slots) v
             = Some (Composer [] (b ++ strip rs) empty_slots, v').
Proof.
  induction n as [|n IH]; intros rs b v Hrs Hn; [lia|].
  destruct (read (Composer rs b empty_slots)) as [[[ch isTail] err] c1] eqn:Hr.
  destruct (read_spec _ _ _ _ _ Hr) as (Hb & Hl & Hcase). cbn [buf lmt r] in *.
  assert (Ha : smart_attach c1 ch = None).
  { apply smart_attach_no_lead. rewrite Hl. reflexivity. }
  destruct c1 as [rs1 b1 a1]. cbn [buf lmt r] in *. subst b1 a1.
  destruct Hcase as [(-> & -> & -> & -> & S)|(-> & Hch & Hlen & S)].
  - rewrite (loop_break _ _ _ _ _ (iteration_eof _ _ _ _ _ _ Hr Ha)).
    rewrite S, app_nil_r. eexists. reflexivity.
  - rewrite S in Hrs. inversion Hrs as [|? ? Hh Hrs']; subst.
    rewrite (loop_continue _ _ _ _ _ (iteration_other _ _ _ _ _ Hr Ha Hh)).
    assert (Hw : write (Composer rs1 b empty_slots) = Composer rs1 b empty_slots)
      by reflexivity.
    destruct (negb _); rewrite ?Hw; cbn [r buf lmt];
      (destruct (IH rs1 (b ++ [ch]) (Locals (score v) (-1)) Hrs' ltac:(lia)) as [v' ->];
       rewrite S, <- app_assoc; eexists; reflexivity).
Qed.

End Steps.

Lemma consonant_rune L :
  hangul.is_consonant L = true ->
  L <> 0 /\ L <> hyphen /\ hangul.is_syllable L = false.
Proof.
  unfold hangul.is_consonant, hangul.is_syllable, hyphen. intros H.
  apply andb_prop in H as [H1 H2]. apply Z.leb_le in H1, H2.
  repeat split; lia.
Qed.

Lemma vowel_rune V :
  hangul.is_vowel V = true ->
  V <> 0 /\ V <> hyphen /\ hangul.is_syllable V = false.
Proof.
  unfold hangul.is_vowel, hangul.is_syllable, hyphen. intros H.
  apply andb_prop in H as [H1 H2]. apply Z.leb_le in H1, H2.
  repeat split; lia.
Qed.

Section Jamo.

Context {pkg : hangul.Package}.
Hypothesis Hcls : hangul.classifies_jamo pkg.

(** An unmarked consonant that the smart attach leaves alone flushes the
    buffer and opens a syllable. *)
Lemma iteration_lead_open rs b a sc p L :
  hangul.is_consonant L = true -> 0 <= sc ->
  smart_attach (Composer rs b a) L = None ->
  iteration (Composer (L :: rs) b a) (Locals sc p)
  = (Continue, Composer rs (b ++ pending a) (Slots L 0 0), Locals lead sc).
Proof.
  intros HL Hsc Ha. destruct (consonant_rune L HL) as (H0 & Hh & Hs).
  destruct (Hcls L) as [Hc _]. destruct (Hc HL) as (Hhan & Hj & Hm).
  rewrite (iteration_jamo _ (Locals sc p) _ _ _ (read_rune rs b a L Hh)
             Ha Hhan (or_introl Hj)).
  rewrite Hm, flushes_leb. cbn [score jamo_score].
  destruct (Z.leb_spec lead sc); [|unfold lead in *; lia]. rewrite write_eq. reflexivity.
Qed.

Hypothesis Hout : hangul.splits_only_syllables pkg.

(** An unmarked consonant flushes the buffer and opens a syllable. *)
Lemma iteration_lead rs b a sc p L :
  hangul.is_consonant L = true -> 0 <= sc ->
  iteration (Composer (L :: rs) b a) (Locals sc p)
  = (Continue, Composer rs (b ++ pending a) (Slots L 0 0), Locals lead sc).
Proof.
  intros HL Hsc. apply iteration_lead_open; try assumption.
  apply smart_attach_other, Hout, consonant_rune, HL.
Qed.

(** A vowel flushes the buffer unless the last Jamo was a lead. *)
Lemma iteration_vowel rs b a sc p V :
  hangul.is_vowel V = true ->
  iteration (Composer (V :: rs) b a) (Locals sc p)
  = (Continue,
     (if 1 <=? sc then Composer rs (b ++ pending a) (Slots 0 V 0)
      else Composer rs b (Slots (s_lead a) V (s_tail a))),
     Locals medial sc).
Proof.
  intros HV. destruct (vowel_rune V HV) as (H0 & Hh & Hs).
  destruct (Hcls V) as [_ Hc]. destruct (Hc HV) as (Hhan & Hm).
  rewrite (iteration_jamo _ (Locals sc p) _ _ _ (read_rune rs b a V Hh)
             (smart_attach_other _ _ (Hout V Hs)) Hhan (or_intror Hm)).
  rewrite Hm, flushes_leb. cbn [score jamo_score]. change (medial <=? sc) with (1 <=? sc).
  destruct (1 <=? sc); [rewrite write_eq|]; reflexivity.
Qed.

(** A marked consonant flushes the buffer only after another tail. *)
Lemma iteration_tail rs b a sc p T :
  hangul.is_consonant T = true ->
  iteration (Composer (hyphen :: T :: rs) b a) (Locals sc p)
  = (Continue,
     (if 2 <=? sc then Composer rs (b ++ pending a) (Slots 0 0 T)
      else Composer rs b (Slots (s_lead a) (s_medial a) T)),
     Locals tail sc).
Proof.
  intros HT. destruct (consonant_rune T HT) as (H0 & Hh & Hs).
  destruct (Hcls T) as [Hc _]. destruct (Hc HT) as (Hhan & Hj & Hm).
  rewrite (iteration_jamo _ (Locals sc p) _ _ _ (read_marked rs b a T Hh)
             (smart_attach_other _ _ (Hout T Hs)) Hhan (or_introl Hj)).
  rewrite Hm, flushes_leb. cbn [score jamo_score]. change (tail <=? sc) with (2 <=? sc).
  destruct (2 <=? sc); [rewrite write_eq|]; reflexivity.
Qed.

Lemma iteration_end b a v :
  iteration (Composer [] b a) v
  = (Break, Composer [] b a, Locals (score v) (score v)).
Proof.
  eapply iteration_eof; [apply read_end|].
  apply smart_attach_other. apply Hout. reflexivity.
Qed.

Lemma finish_end n b a sc p :
  0 <= sc ->
  finish (loop (S n) (Composer [] b a) (Locals sc p)) = Some (b ++ pending a).
Proof.
  intros Hsc. rewrite (loop_break _ _ _ _ _ (iteration_end b a (Locals sc p))).
  cbn [finish prevScore score].
  destruct (Z.eqb_spec sc (-1)); [lia|]. cbn [negb]. rewrite write_eq. reflexivity.
Qed.

(** A sequence of spelled syllables composes to their [Join]s, after
    whatever the buffer held. *)
Lemma loop_spelled ws : forall n b a sc p,
  Forall spelled ws -> 0 <= sc ->
  (length (flat_map spell ws) < n)%nat ->
  finish (loop n (Composer (flat_map spell ws) b a) (Locals sc p))
  = Some (b ++ pending a
            ++ map (fun s => hangul.Join (fst (fst s)) (snd (fst s)) (snd s)) ws).
Proof.
  induction ws as [|[[L V] T] ws IH]; intros n b a sc p Hws Hsc Hn.
  - destruct n as [|n]; [simpl in Hn; lia|].
    cbn [flat_map map]. rewrite finish_end by assumption. rewrite app_nil_r. reflexivity.
  - inversion Hws as [|? ? Hs Hws']; subst. destruct Hs as (HL & HV & HT).
    destruct (consonant_rune L HL) as (HL0 & _). destruct (vowel_rune V HV) as (HV0 & _).
    cbn [flat_map spell map fst snd] in *.
    rewrite <- !app_comm_cons in *. cbn [length] in Hn.
    destruct n as [|n]; [lia|].
    rewrite (loop_continue _ _ _ _ _ (iteration_lead _ b a sc p L HL Hsc)).
    destruct n as [|n]; [lia|].
    rewrite (loop_continue _ _ _ _ _ (iteration_vowel _ _ _ lead sc V HV)).
    change (1 <=? lead) with false. cbn [s_lead s_tail].
    destruct (Z.eqb_spec T 0) as [->|HT0].
    + cbn [app] in *. rewrite IH; [|assumption|unfold medial; lia|lia].
      rewrite (pending_full L V 0 HL0 HV0), <- !app_assoc. reflexivity.
    + destruct HT as [HT|HT]; [contradiction|].
      rewrite <- !app_comm_cons in *. cbn [app length] in *.
      destruct n as [|n]; [lia|].
      rewrite (loop_continue _ _ _ _ _ (iteration_tail _ _ _ medial lead T HT)).
      change (2 <=? medial) with false. cbn [s_lead s_medial].
      rewrite IH; [|assumption|unfold tail; lia|lia].
      rewrite (pending_full L V T HL0 HV0), <- !app_assoc. reflexivity.
Qed.

End Jamo.

Lemma standard_spelled s :
  standard s -> spelled (jamo_of s) /\ spell (jamo_of s) = decomposed_syllable s.
Proof.
  destruct s as [[li vi] ti]. intros (Hl & Hv & Ht). cbn [jamo_of spelled spell decomposed_syllable].
  destruct (Z.eqb_spec ti 0) as [->|Hti].
  - repeat split; auto using lead_jamo_consonant, vowel_jamo_vowel.
  - assert (HT : hangul.is_consonant (hangul.tail_jamo ti) = true)
      by (apply tail_jamo_consonant; lia).
    destruct (consonant_rune _ HT) as (H0 & _).
    destruct (Z.eqb_spec (hangul.tail_jamo ti) 0); [contradiction|].
    repeat split; auto using lead_jamo_consonant, vowel_jamo_vowel.
Qed.

Lemma ComposeHangul_finish {pkg : hangul.Package} word :
  ComposeHangul word
  = finish (loop (length word + 2) (Composer word [] empty_slots) (Locals 0 0)).
Proof. unfold ComposeHangul. apply Compose_finish. Qed.

(** [ComposeHangul] has no result only when the loop never ends. *)
Lemma ComposeHangul_none {pkg : hangul.Package} word :
  ComposeHangul word = None ->
  forall fuel, Compose fuel (Composer word [] empty_slots) = None.
Proof.
  rewrite ComposeHangul_finish. intros H fuel. rewrite Compose_finish.
  destruct (loop fuel _ _) as [x|] eqn:E; [|reflexivity].
  apply loop_fuel_enough in E. cbn [r] in E. rewrite E in H.
  destruct x. discriminate.
Qed.

(** Spelled syllables compose to their [Join]s. *)
Lemma ComposeHangul_spelled (pkg : hangul.Package) ws :
  hangul.classifies_jamo pkg -> hangul.splits_only_syllables pkg ->
  Forall spelled ws ->
  ComposeHangul (flat_map spell ws)
  = Some (map (fun s => hangul.Join (fst (fst s)) (snd (fst s)) (snd s)) ws).
Proof.
  intros Hcls Hout Hws. rewrite ComposeHangul_finish.
  rewrite (loop_spelled Hcls Hout ws _ [] empty_slots 0 0 Hws); [reflexivity|lia|lia].
Qed.

(** The decomposed form of a standard word composes to its precomposed
    form. *)
Lemma ComposeHangul_decomposed (pkg : hangul.Package) word :
  hangul.classifies_jamo pkg -> hangul.splits_only_syllables pkg ->
  hangul.joins_compat pkg ->
  Forall standard word ->
  ComposeHangul (decomposed word) = Some (precomposed word).
Proof.
  intros Hcls Hout Hjoin Hword.
  assert (E : decomposed word = flat_map spell (map jamo_of word)).
  { unfold decomposed. induction Hword as [|s word Hs _ IH]; [reflexivity|].
    cbn [flat_map map]. rewrite IH, (proj2 (standard_spelled s Hs)). reflexivity. }
  rewrite E, ComposeHangul_spelled; try assumption; clear E.
  - f_equal. unfold precomposed. rewrite map_map.
    induction Hword as [|[[li vi] ti] word (Hl & Hv & Ht) _ IH]; [reflexivity|].
    cbn [map jamo_of fst snd]. rewrite IH, Hjoin by assumption. reflexivity.
  - induction Hword as [|s word Hs _ IH]; constructor;
      [apply standard_spelled; assumption | assumption].
Qed.

(** Precomposed syllables pass one by one through the buffer. *)
Lemma loop_syllables {pkg : hangul.Package} :
  hangul.classifies_syllables pkg -> hangul.joins_split pkg ->
  forall ws n b a sc p,
    Forall (fun ch => hangul.is_syllable ch = true) ws ->
    s_lead a = 0 \/ s_medial a <> 0 -> 0 <= sc -> (length ws < n)%nat ->
    finish (loop n (Composer ws b a) (Locals sc p)) = Some (b ++ pending a ++ ws).
Proof.
  intros Hcls Hjs. induction ws as [|s ws IH]; intros n b a sc p Hws Ha Hsc Hn;
    (destruct n as [|n]; [simpl in Hn; lia|]).
  - assert (Hn' : smart_attach (Composer [] b a) 0 = None).
    { destruct Ha; [apply smart_attach_no_lead | apply smart_attach_medial]; assumption. }
    rewrite (loop_break _ _ _ _ _
               (iteration_eof _ (Locals sc p) _ _ _ _ (read_end b a) Hn')).
    cbn [finish prevScore score]. destruct (Z.eqb_spec sc (-1)); [lia|].
    cbn [negb]. rewrite write_eq, app_nil_r. reflexivity.
  - inversion Hws as [|? ? Hs Hws']; subst.
    assert (Hh : s <> hyphen).
    { unfold hangul.is_syllable, hyphen in *. lia. }
    assert (Hn' : smart_attach (Composer ws b a) s = None).
    { destruct Ha; [apply smart_attach_no_lead | apply smart_attach_medial]; assumption. }
    destruct (Hcls s Hs) as (Hhan & Hj & Hm). destruct (Hjs s Hs) as (Hl0 & Hm0 & E).
    rewrite (loop_continue _ _ _ _ _
               (iteration_composed _ (Locals sc p) _ _ _
                  (read_rune ws b a s Hh) Hn' Hhan Hj Hm)).
    cbn [r buf lmt score]. simpl in Hn.
    rewrite IH; [|assumption|right; exact Hm0|unfold tail; lia|lia].
    rewrite (pending_full _ _ _ Hl0 Hm0), E, <- !app_assoc. reflexivity.
Qed.

(** *** Short inputs *)

Section Short.

Context {pkg : hangul.Package}.
Hypothesis Hcls : hangul.classifies_jamo pkg.
Hypothesis Hout : hangul.splits_only_syllables pkg.

(** Lead, vowel, marked tail: one syllable. *)
Lemma ComposeHangul_marked L V T :
  hangul.is_consonant L = true -> hangul.is_vowel V = true ->
  hangul.is_consonant T = true ->
  ComposeHangul [L; V; hyphen; T] = Some [hangul.Join L V T].
Proof.
  intros HL HV HT. destruct (consonant_rune T HT) as (HT0 & _).
  assert (E : [L; V; hyphen; T] = flat_map spell [(L, V, T)]).
  { cbn [flat_map spell]. destruct (Z.eqb_spec T 0); [contradiction | reflexivity]. }
  rewrite E, (ComposeHangul_spelled pkg [(L, V, T)] Hcls Hout); [reflexivity|].
  repeat constructor; assumption.
Qed.

(** Lead, vowel, vowel: two syllables, the first without tail, the
    second on the lead [ieung]. *)
Lemma ComposeHangul_two_vowels L V1 V2 :
  hangul.is_consonant L = true -> hangul.is_vowel V1 = true ->
  hangul.is_vowel V2 = true ->
  ComposeHangul [L; V1; V2] = Some [hangul.Join L V1 0; hangul.Join ieung V2 0].
Proof.
  intros HL HV1 HV2. destruct (consonant_rune L HL) as (HL0 & _).
  destruct (vowel_rune V1 HV1) as (HV10 & _). destruct (vowel_rune V2 HV2) as (HV20 & _).
  rewrite ComposeHangul_finish. cbn [length Nat.add].
  rewrite (loop_continue _ _ _ _ _ (iteration_lead Hcls Hout _ _ _ 0 0 L HL ltac:(lia))).
  rewrite (loop_continue _ _ _ _ _ (iteration_vowel Hcls Hout _ _ _ lead 0 V1 HV1)).
  change (1 <=? lead) with false. cbn [s_lead s_tail].
  rewrite (loop_continue _ _ _ _ _ (iteration_vowel Hcls Hout _ _ _ medial lead V2 HV2)).
  change (1 <=? medial) with true. cbn iota.
  rewrite (finish_end Hout) by (unfold medial; lia).
  rewrite (pending_full L V1 0 HL0 HV10), pending_empty, pending_filled by
    (unfold is_empty; cbn [s_lead s_medial s_tail]; lia).
  cbn [s_lead s_medial s_tail]. destruct (Z.eqb_spec V2 0); [contradiction|]. reflexivity.
Qed.

(** Lead, vowel, unmarked consonant: two syllables, the consonant leading
    the second with the filler vowel. *)
Lemma ComposeHangul_unmarked L V T :
  hangul.is_consonant L = true -> hangul.is_vowel V = true ->
  hangul.is_consonant T = true ->
  ComposeHangul [L; V; T] = Some [hangul.Join L V 0; hangul.Join T eu 0].
Proof.
  intros HL HV HT. destruct (consonant_rune L HL) as (HL0 & _).
  destruct (vowel_rune V HV) as (HV0 & _). destruct (consonant_rune T HT) as (HT0 & _).
  rewrite ComposeHangul_finish. cbn [length Nat.add].
  rewrite (loop_continue _ _ _ _ _ (iteration_lead Hcls Hout _ _ _ 0 0 L HL ltac:(lia))).
  rewrite (loop_continue _ _ _ _ _ (iteration_vowel Hcls Hout _ _ _ lead 0 V HV)).
  change (1 <=? lead) with false. cbn [s_lead s_tail].
  rewrite (loop_continue _ _ _ _ _
             (iteration_lead Hcls Hout _ _ _ medial lead T HT ltac:(unfold medial; lia))).
  rewrite (finish_end Hout) by (unfold lead; lia).
  rewrite (pending_full L V 0 HL0 HV0), pending_empty, pending_filled by
    (unfold is_empty; cbn [s_lead s_medial s_tail]; lia).
  cbn [s_lead s_medial s_tail]. destruct (Z.eqb_spec T 0); [contradiction|]. reflexivity.
Qed.

(** A lone lead: one syllable on the filler vowel, without tail. *)
Lemma ComposeHangul_lead L :
  hangul.is_consonant L = true -> ComposeHangul [L] = Some [hangul.Join L eu 0].
Proof.
  intros HL. destruct (consonant_rune L HL) as (HL0 & _).
  rewrite ComposeHangul_finish. cbn [length Nat.add].
  rewrite (loop_continue _ _ _ _ _ (iteration_lead Hcls Hout _ _ _ 0 0 L HL ltac:(lia))).
  rewrite (finish_end Hout) by (unfold lead; lia).
  rewrite pending_empty, pending_filled by
    (unfold is_empty; cbn [s_lead s_medial s_tail]; lia).
  cbn [s_lead s_medial s_tail]. destruct (Z.eqb_spec L 0); [contradiction|]. reflexivity.
Qed.

End Short.

(** ** The composer's specification *)

Ltac standard_word :=
  repeat first [solve [constructor] | constructor; [unfold standard; lia|]].

(** C1: for every well-formed decomposed Jamo sequence of a standard
    Hangul word (leads, vowels and hyphen-marked tails in lead, medial,
    tail order) [ComposeHangul] returns exactly the precomposed word, rune
    for rune; in particular the Jamo of U+C790 U+BAA8 ("jamo") compose to
    those two syllables. *)
Theorem compose_standard_word (pkg : hangul.Package) :
  hangul.classifies_jamo pkg -> hangul.splits_only_syllables pkg ->
  hangul.joins_compat pkg ->
  (forall word, Forall standard word ->
     ComposeHangul (decomposed word) = Some (precomposed word)) /\
  ComposeHangul (runes "ㅈㅏㅁㅗ") = Some (runes "자모").
Proof.
  intros Hcls Hout Hjoin. split.
  - intros word Hword. apply ComposeHangul_decomposed; assumption.
  - apply (ComposeHangul_decomposed pkg [(12, 0, 0); (6, 8, 0)]); try assumption.
    standard_word.
Qed.

Lemma compose_standard_word_witness :
  Forall standard [(18, 0, 4); (0, 18, 8)] /\
  @ComposeHangul hangul.model (decomposed [(18, 0, 4); (0, 18, 8)])
  = Some (precomposed [(18, 0, 4); (0, 18, 8)]).
Proof.
  assert (H : Forall standard [(18, 0, 4); (0, 18, 8)])
    by standard_word.
  split; [exact H|].
  exact (proj1 (compose_standard_word hangul.model model_classifies_jamo
                  model_splits_only_syllables model_joins_compat)
           _ H).
Defined.

(** C2: on a decomposed Jamo the loop flushes the buffer before storing
    the Jamo exactly when its score (0 lead, 1 medial, 2 tail) is at most
    the score of the pass before, the one case apart where the score is
    tail, the score before is medial and the tail slot is empty.  Hence a
    lead, a vowel and a marked tail compose to one syllable, and a lead
    and two vowels to two syllables, the first without tail. *)
Theorem flush_by_score (pkg : hangul.Package) :
  hangul.classifies_jamo pkg -> hangul.splits_only_syllables pkg ->
  (forall c v ch isTail c1,
     read c = (ch, isTail, None, c1) -> smart_attach c1 ch = None ->
     hangul.IsHangul ch = true ->
     hangul.IsJaeum ch = true \/ hangul.IsMoeum ch = true ->
     let s := if hangul.IsMoeum ch then medial else if isTail then tail else lead in
     exists flush : bool,
       (flush = true <->
        s <= score v /\ ~ (s = tail /\ score v = medial /\ s_tail (lmt c1) = 0)) /\
       let c2 := if flush then write c1 else c1 in
       iteration c v
       = (Continue, Composer (r c2) (buf c2) (set (lmt c2) s ch), Locals s (score v))) /\
  (forall L V T,
     hangul.is_consonant L = true -> hangul.is_vowel V = true ->
     hangul.is_consonant T = true ->
     ComposeHangul [L; V; hyphen; T] = Some [hangul.Join L V T]) /\
  (forall L V1 V2,
     hangul.is_consonant L = true -> hangul.is_vowel V1 = true ->
     hangul.is_vowel V2 = true ->
     ComposeHangul [L; V1; V2] = Some [hangul.Join L V1 0; hangul.Join ieung V2 0]).
Proof.
  intros Hcls Hout. split; [|split].
  - intros c v ch isTail c1 Hr Ha Hh Hjm s.
    exists (flushes s (score v) (lmt c1)). split.
    + unfold flushes. rewrite andb_true_iff, negb_true_iff, !andb_false_iff.
      rewrite Z.leb_le, !Z.eqb_neq. unfold tail, medial. lia.
    + exact (iteration_jamo c v ch isTail c1 Hr Ha Hh Hjm).
  - intros L V T. apply ComposeHangul_marked; assumption.
  - intros L V1 V2. apply ComposeHangul_two_vowels; assumption.
Qed.

Lemma flush_by_score_witness :
  (exists flush : bool,
     (flush = true <-> medial <= medial /\ ~ (medial = tail /\ medial = medial /\ 0 = 0)) /\
     @iteration hangul.model (Composer [0x3163] [0x61] (Slots 0x3131 0x314F 0))
       (Locals medial lead)
     = (Continue,
        (if flush then Composer [] (0x61 :: runes "가") (Slots 0 0x3163 0)
         else Composer [] [0x61] (Slots 0x3131 0x3163 0)),
        Locals medial medial)) /\
  @ComposeHangul hangul.model (runes "ㄱㅏ-ㅇ") = Some (runes "강") /\
  @ComposeHangul hangul.model (runes "ㄱㅏㅣ") = Some (runes "가이").
Proof.
  pose (H := flush_by_score hangul.model model_classifies_jamo
               model_splits_only_syllables).
  split; [|split].
  - destruct (proj1 H (Composer [0x3163] [0x61] (Slots 0x3131 0x314F 0))
                (Locals medial lead) 0x3163 false
                (Composer [] [0x61] (Slots 0x3131 0x314F 0))
                eq_refl eq_refl eq_refl (or_intror eq_refl)) as [flush [Hf E]].
    exists flush. split; [exact Hf|]. rewrite E. destruct flush; reflexivity.
  - exact (proj1 (proj2 H) 0x3131 0x314F 0x3147 eq_refl eq_refl eq_refl).
  - exact (proj2 (proj2 H) 0x3131 0x314F 0x3163 eq_refl eq_refl eq_refl).
Defined.

(** C3, as the code has it: the input U+314E U+314F '-' U+3134 U+3131
    U+3161 '-' U+3139 U+3139 U+314F U+3147 U+3163 U+3148 U+3161 composes
    to the five syllables of "hangulize", U+D55C U+AE00 U+B77C U+C774
    U+C988: the marked tail U+3139 closes the second syllable. *)
Theorem compose_hangulize (pkg : hangul.Package) :
  hangul.classifies_jamo pkg -> hangul.splits_only_syllables pkg ->
  hangul.joins_compat pkg ->
  ComposeHangul (runes "ㅎㅏ-ㄴㄱㅡ-ㄹㄹㅏㅇㅣㅈㅡ") = Some (runes "한글라이즈").
Proof.
  intros Hcls Hout Hjoin.
  apply (ComposeHangul_decomposed pkg
           [(18, 0, 4); (0, 18, 8); (5, 0, 0); (11, 20, 0); (12, 18, 0)]);
    try assumption.
  standard_word.
Qed.

Lemma compose_hangulize_witness :
  @ComposeHangul hangul.model (runes "ㅎㅏ-ㄴㄱㅡ-ㄹㄹㅏㅇㅣㅈㅡ")
  = Some (runes "한글라이즈").
Proof.
  exact (compose_hangulize hangul.model model_classifies_jamo
           model_splits_only_syllables model_joins_compat).
Defined.

(** Against C3 as stated: the output it names, six syllables with
    U+ADF8 U+B97C in second and third place, is not what the composer
    returns. *)
Lemma hangulize_not_as_stated :
  @ComposeHangul hangul.model (runes "ㅎㅏ-ㄴㄱㅡ-ㄹㄹㅏㅇㅣㅈㅡ")
  = Some [0xD55C; 0xAE00; 0xB77C; 0xC774; 0xC988] /\
  @ComposeHangul hangul.model (runes "ㅎㅏ-ㄴㄱㅡ-ㄹㄹㅏㅇㅣㅈㅡ")
  <> Some (runes "한그를라이즈").
Proof. split; [vm_compute; reflexivity | vm_compute; discriminate]. Qed.

(** C4, as the code has it, rune for rune: the input is the sequence of
    runes that [ReadRune] decodes from the string, the output the sequence
    of runes written to the buffer.  When no rune of the input is Hangul,
    the runes of the output are the runes of the input without the
    hyphens, each in place and nothing added; when, besides, no rune of
    the input is a hyphen, the runes of the output are the runes of the
    input.  A byte that starts no well-formed UTF-8 sequence is read as
    the rune U+FFFD, and it is of that rune that the statement speaks. *)
Theorem compose_non_hangul (pkg : hangul.Package) (word : list rune) :
  Forall (fun ch => hangul.IsHangul ch = false) word ->
  ComposeHangul word = Some (strip word) /\
  (Forall (fun ch => ch <> hyphen) word -> ComposeHangul word = Some word).
Proof.
  intros Hword.
  assert (E : ComposeHangul word = Some (strip word)).
  { rewrite ComposeHangul_finish.
    destruct (loop_other (length word + 2) word [] (Locals 0 0)) as [v' ->].
    - unfold strip. apply Forall_forall. intros ch Hin.
      apply list_elem_of_In in Hin. apply List.filter_In in Hin as [Hin _].
      rewrite Forall_forall in Hword. apply Hword. apply list_elem_of_In. exact Hin.
    - lia.
    - cbn [finish]. destruct (negb _); reflexivity. }
  split; [exact E|]. intros Hno. rewrite E, (strip_id word Hno). reflexivity.
Qed.

Lemma compose_non_hangul_witness :
  Forall (fun ch => @hangul.IsHangul hangul.model ch = false) (runes "co-op, ok") /\
  @ComposeHangul hangul.model (runes "co-op, ok") = Some (runes "coop, ok").
Proof.
  assert (H : Forall (fun ch => @hangul.IsHangul hangul.model ch = false)
                (runes "co-op, ok")) by (repeat constructor).
  split; [exact H|].
  exact (proj1 (compose_non_hangul hangul.model _ H)).
Defined.

(** Against C4 as stated: the input "a-b" holds no Hangul rune, and
    the output "ab" is not the input: the hyphen is gone. *)
Lemma hyphen_not_passed_through :
  Forall (fun ch => @hangul.IsHangul hangul.model ch = false) (runes "a-b") /\
  @ComposeHangul hangul.model (runes "a-b") = Some (runes "ab") /\
  @ComposeHangul hangul.model (runes "a-b") <> Some (runes "a-b").
Proof.
  split; [repeat constructor|].
  split; [vm_compute; reflexivity | vm_compute; discriminate].
Qed.

(** C5: with a lead buffered and no medial, a character that [Split]
    gives the lead [ieung] hands its medial and tail to the buffer:
    nothing is flushed, nothing is written, and the pass ends there.  The
    check comes before the test of the read's error and before the
    character is classified, whatever the character is.  U+3131 followed
    by the syllable U+C544 composes to U+AC00. *)
Theorem smart_attach_first (pkg : hangul.Package) :
  hangul.classifies_jamo pkg -> hangul.splits_to_compat pkg ->
  hangul.joins_compat pkg ->
  (forall c v ch isTail err c1 md tl,
     read c = (ch, isTail, err, c1) ->
     s_lead (lmt c) <> 0 -> s_medial (lmt c) = 0 ->
     hangul.Split ch = (ieung, md, tl) ->
     iteration c v
     = (Continue, Composer (r c1) (buf c) (Slots (s_lead (lmt c)) md tl),
        Locals (score v) (score v))) /\
  ComposeHangul (runes "ㄱ아") = Some (runes "가").
Proof.
  intros Hcls Hsplit Hjoin. split.
  - intros c v ch isTail err c1 md tl Hr Hl Hm Hs.
    destruct (read_spec _ _ _ _ _ Hr) as (Hb & Ha & _).
    rewrite <- Hb, <- Ha in *.
    eapply iteration_attach; [exact Hr|]. apply smart_attach_some; assumption.
  - rewrite ComposeHangul_finish.
    change (runes "ㄱ아") with [0x3131; 0xC544]. cbn [length Nat.add].
    rewrite (loop_continue _ _ _ _ _
               (iteration_lead_open Hcls [0xC544] [] empty_slots 0 0 0x3131
                  eq_refl ltac:(lia)
                  (smart_attach_no_lead (Composer [0xC544] [] empty_slots) 0x3131
                     eq_refl))).
    assert (Hs : hangul.Split 0xC544 = (ieung, 0x314F, 0))
      by exact (Hsplit 0xC544 eq_refl).
    rewrite (loop_continue _ _ _ _ _
               (iteration_attach _ (Locals lead 0) _ _ _ _ _
                  (read_rune [] _ (Slots 0x3131 0 0) 0xC544 ltac:(discriminate))
                  (smart_attach_some (Composer [] ([] ++ pending empty_slots)
                                                 (Slots 0x3131 0 0))
                     0xC544 0x314F 0 ltac:(discriminate) eq_refl Hs))).
    cbn [r buf lmt s_lead score].
    rewrite (loop_break _ _ _ _ _
               (iteration_eof _ (Locals lead lead) _ _ _ _
                  (read_end _ (Slots 0x3131 0x314F 0))
                  (smart_attach_medial
                     (Composer [] ([] ++ pending empty_slots) (Slots 0x3131 0x314F 0))
                     0 ltac:(discriminate)))).
    cbn [finish prevScore score]. change (negb (lead =? -1)) with true. cbn iota.
    rewrite write_eq. cbn [buf lmt].
    rewrite pending_empty, (pending_full 0x3131 0x314F 0) by discriminate.
    rewrite (joins_compat_at pkg Hjoin 0 0 0 0x3131 0x314F 0)
      by (lia || reflexivity).
    reflexivity.
Qed.

Lemma smart_attach_first_witness :
  @iteration hangul.model (Composer [0xC548; 0x61] [0x62] (Slots 0x3131 0 0))
    (Locals 0 0)
  = (Continue, Composer [0x61] [0x62] (Slots 0x3131 0x314F 0x3134), Locals 0 0) /\
  @ComposeHangul hangul.model (runes "ㄱ아") = Some (runes "가").
Proof.
  pose (H := smart_attach_first hangul.model model_classifies_jamo
               model_splits_to_compat model_joins_compat).
  split.
  - exact (proj1 H (Composer [0xC548; 0x61] [0x62] (Slots 0x3131 0 0)) (Locals 0 0)
             0xC548 false None (Composer [0x61] [0x62] (Slots 0x3131 0 0))
             0x314F 0x3134 eq_refl ltac:(discriminate) eq_refl eq_refl).
  - exact (proj2 H).
Defined.

(** C6: a consonant that follows the marker ['-'] goes into the tail
    slot of the open buffer, which is not flushed when the Jamo before was
    a medial (or a lead); the same consonant without the marker flushes
    the buffer and starts a syllable as its lead.  So U+314E U+314F '-'
    U+3134 composes to the one syllable U+D55C, and U+314E U+314F U+3134
    to the two syllables U+D558 U+B290. *)
Theorem marked_tail_attaches (pkg : hangul.Package) :
  hangul.classifies_jamo pkg -> hangul.splits_only_syllables pkg ->
  hangul.joins_compat pkg ->
  (forall rs b a sc p T,
     hangul.is_consonant T = true -> 0 <= sc ->
     iteration (Composer (hyphen :: T :: rs) b a) (Locals sc p)
     = (Continue,
        (if 2 <=? sc
         then Composer rs (buf (write (Composer rs b a))) (Slots 0 0 T)
         else Composer rs b (Slots (s_lead a) (s_medial a) T)),
        Locals tail sc) /\
     iteration (Composer (T :: rs) b a) (Locals sc p)
     = (Continue, Composer rs (buf (write (Composer rs b a))) (Slots T 0 0),
        Locals lead sc)) /\
  (forall L V T,
     hangul.is_consonant L = true -> hangul.is_vowel V = true ->
     hangul.is_consonant T = true ->
     ComposeHangul [L; V; hyphen; T] = Some [hangul.Join L V T] /\
     ComposeHangul [L; V; T] = Some [hangul.Join L V 0; hangul.Join T eu 0]) /\
  ComposeHangul (runes "ㅎㅏ-ㄴ") = Some (runes "한") /\
  ComposeHangul (runes "ㅎㅏㄴ") = Some (runes "하느").
Proof.
  intros Hcls Hout Hjoin. split; [|split; [|split]].
  - intros rs b a sc p T HT Hsc. rewrite write_eq. cbn [buf]. split.
    + apply iteration_tail; assumption.
    + apply iteration_lead; assumption.
  - intros L V T HL HV HT. split.
    + apply ComposeHangul_marked; assumption.
    + apply ComposeHangul_unmarked; assumption.
  - change (runes "ㅎㅏ-ㄴ") with [0x314E; 0x314F; hyphen; 0x3134].
    rewrite (ComposeHangul_marked Hcls Hout) by reflexivity.
    rewrite (joins_compat_at pkg Hjoin 18 0 4 0x314E 0x314F 0x3134)
      by (lia || reflexivity).
    reflexivity.
  - change (runes "ㅎㅏㄴ") with [0x314E; 0x314F; 0x3134].
    rewrite (ComposeHangul_unmarked Hcls Hout) by reflexivity.
    rewrite (joins_compat_at pkg Hjoin 18 0 0 0x314E 0x314F 0),
      (joins_compat_at pkg Hjoin 2 18 0 0x3134 eu 0) by (lia || reflexivity).
    reflexivity.
Qed.

Lemma marked_tail_attaches_witness :
  (@iteration hangul.model
     (Composer [hyphen; 0x3139] [0x61] (Slots 0x3141 0x315C 0)) (Locals medial lead)
   = (Continue, Composer [] [0x61] (Slots 0x3141 0x315C 0x3139), Locals tail medial) /\
   @iteration hangul.model
     (Composer [0x3139] [0x61] (Slots 0x3141 0x315C 0)) (Locals medial lead)
   = (Continue, Composer [] (0x61 :: runes "무") (Slots 0x3139 0 0),
      Locals lead medial)) /\
  @ComposeHangul hangul.model (runes "ㅁㅜ-ㄹ") = Some (runes "물") /\
  @ComposeHangul hangul.model (runes "ㅁㅜㄹ") = Some (runes "무르").
Proof.
  pose (H := marked_tail_attaches hangul.model model_classifies_jamo
               model_splits_only_syllables model_joins_compat).
  split.
  - exact (proj1 H [] [0x61] (Slots 0x3141 0x315C 0) medial lead 0x3139 eq_refl
             ltac:(discriminate)).
  - exact (proj1 (proj2 H) 0x3141 0x315C 0x3139 eq_refl eq_refl eq_refl).
Defined.

(** C7: on a string of precomposed Hangul syllables [ComposeHangul] is
    the identity. *)
Theorem compose_precomposed (pkg : hangul.Package) :
  hangul.classifies_syllables pkg -> hangul.joins_split pkg ->
  forall word, Forall (fun ch => hangul.is_syllable ch = true) word ->
    ComposeHangul word = Some word.
Proof.
  intros Hcls Hjs word Hword. rewrite ComposeHangul_finish.
  rewrite (loop_syllables Hcls Hjs word _ [] empty_slots 0 0 Hword);
    [reflexivity | left; reflexivity | lia | lia].
Qed.

Lemma compose_precomposed_witness :
  Forall (fun ch => hangul.is_syllable ch = true) (runes "한글라이즈") /\
  @ComposeHangul hangul.model (runes "한글라이즈") = Some (runes "한글라이즈").
Proof.
  assert (H : Forall (fun ch => hangul.is_syllable ch = true) (runes "한글라이즈"))
    by (repeat constructor).
  split; [exact H|].
  exact (compose_precomposed hangul.model model_classifies_syllables
           model_joins_split _ H).
Defined.

(** C8: when [write] runs on a buffer that is not empty, an empty lead
    slot is filled with [ieung], an empty medial slot with [eu], and the
    tail slot is joined as it is, empty or not; the buffer is cleared.  So
    a lone lead consonant composes to one syllable of that lead, the
    filler vowel and no tail: U+3131 alone composes to U+ADF8. *)
Theorem write_fills_missing (pkg : hangul.Package) :
  hangul.classifies_jamo pkg -> hangul.splits_only_syllables pkg ->
  hangul.joins_compat pkg ->
  (forall c, is_empty (lmt c) = false ->
     write c
     = Composer (r c)
         (buf c ++ [hangul.Join (if s_lead (lmt c) =? 0 then ieung else s_lead (lmt c))
                                (if s_medial (lmt c) =? 0 then eu else s_medial (lmt c))
                                (s_tail (lmt c))])
         empty_slots) /\
  (forall L, hangul.is_consonant L = true ->
     ComposeHangul [L] = Some [hangul.Join L eu 0]) /\
  ComposeHangul (runes "ㄱ") = Some (runes "그").
Proof.
  intros Hcls Hout Hjoin. split; [|split].
  - intros c Hc. rewrite write_eq, (pending_filled _ Hc). reflexivity.
  - intros L HL. apply ComposeHangul_lead; assumption.
  - change (runes "ㄱ") with [0x3131].
    rewrite (ComposeHangul_lead Hcls Hout) by reflexivity.
    rewrite (joins_compat_at pkg Hjoin 0 18 0 0x3131 eu 0)
      by (lia || reflexivity).
    reflexivity.
Qed.

Lemma write_fills_missing_witness :
  @write hangul.model (Composer [] [0x61] (Slots 0 0 0x3134))
  = Composer [] (0x61 :: runes "은") empty_slots /\
  @ComposeHangul hangul.model (runes "ㅎ") = Some (runes "흐").
Proof.
  pose (H := write_fills_missing hangul.model model_classifies_jamo
               model_splits_only_syllables model_joins_compat).
  split.
  - exact (proj1 H (Composer [] [0x61] (Slots 0 0 0x3134)) eq_refl).
  - exact (proj1 (proj2 H) 0x314E eq_refl).
Defined.

(** C10: the output of [ComposeHangul] holds no hyphen, whatever the
    input: [read] never returns one as a character, be it between other
    characters or before the end of the input, and [Join] yields none.
    The loop ends and returns an output whenever [Split] reports the lead
    [ieung] for syllables only. *)
Theorem output_without_hyphen (pkg : hangul.Package) :
  hangul.join_not_hyphen pkg ->
  (forall c ch isTail c1, read c = (ch, isTail, None, c1) -> ch <> hyphen) /\
  (forall word out,
     ComposeHangul word = Some out -> Forall (fun ch => ch <> hyphen) out) /\
  (hangul.splits_only_syllables pkg ->
   forall word, exists out,
     ComposeHangul word = Some out /\ Forall (fun ch => ch <> hyphen) out).
Proof.
  intros Hj.
  assert (G : forall word out,
             ComposeHangul word = Some out -> Forall (fun ch => ch <> hyphen) out).
  { intros word out. rewrite ComposeHangul_finish.
    destruct (loop _ _ _) as [[c v]|] eqn:E; [|discriminate].
    cbn [finish]. intros [= <-].
    pose proof (loop_no_hyphen Hj _ _ _ _ _ E (List.Forall_nil _)) as H.
    destruct (negb _); [|exact H]. unfold write.
    destruct (is_empty (lmt c)); [exact H|]. cbn [buf].
    apply Forall_app. split; [exact H|]. constructor; [apply Hj | constructor]. }
  split; [|split; [exact G|]].
  { intros c ch isTail c1 Hr.
    destruct (read_spec _ _ _ _ _ Hr) as (_ & _ & [(E & _)|(_ & Hch & _)]);
      [discriminate | exact Hch]. }
  intros Hout word.
  destruct (loop_terminates Hout (length word + 2) (Composer word [] empty_slots)
              (Locals 0 0)) as [[c v] E]; [cbn [r]; lia|].
  assert (E' : ComposeHangul word
               = Some (buf (if negb (prevScore v =? -1) then write c else c))).
  { rewrite ComposeHangul_finish, E. reflexivity. }
  eexists. split; [exact E'|]. eapply G. exact E'.
Qed.

Lemma output_without_hyphen_witness :
  exists out,
    @ComposeHangul hangul.model (runes "-a-ㄱ--ㅏ-ㄴ-b-") = Some out /\
    Forall (fun ch => ch <> hyphen) out.
Proof.
  exact (proj2 (proj2 (output_without_hyphen hangul.model model_join_not_hyphen))
           model_splits_only_syllables (runes "-a-ㄱ--ㅏ-ㄴ-b-")).
Defined.

(** ** The transliterator's specification *)

Section Transliterate.

Variable IsSpace : rune -> bool.
Variable ToLower : list rune -> list rune.
Variable loaded : gmap (list rune) (list rune).

Lemma fields_no_space s : forall field,
  Forall (fun ch => IsSpace ch = false) s ->
  english.fields IsSpace field s = match field ++ s with [] => [] | _ => [field ++ s] end.
Proof.
  induction s as [|ch s IH]; intros field Hs.
  - rewrite app_nil_r. reflexivity.
  - inversion Hs as [|? ? Hch Hs']; subst. cbn [english.fields]. rewrite Hch, IH by assumption.
    rewrite <- app_assoc. reflexivity.
Qed.

(** C9: for a word without white space whose trimmed and lower-cased
    form is no key of the loaded dictionary, [Transliterate] returns the
    word as it is and a [nil] error: a miss is no error. *)
Theorem transliterate_miss (g : english.globals) (word : list rune) :
  Forall (fun ch => IsSpace ch = false) word ->
  english.dict (english.load loaded g)
    !! ToLower (english.Trim word english.cutset) = None ->
  english.Transliterate IsSpace ToLower loaded g word
  = (word, None, english.load loaded g).
Proof.
  intros Hword Hmiss. unfold english.Transliterate, english.Fields.
  rewrite fields_no_space by assumption. cbn [app].
  destruct word as [|ch word]; [reflexivity|].
  cbn [fold_left]. rewrite Hmiss. reflexivity.
Qed.

End Transliterate.

Lemma transliterate_miss_witness :
  Forall (fun ch => english.ascii_space ch = false) (runes "(Hangulize!)") /\
  english.Transliterate english.ascii_space english.ascii_lower
    {[ runes "hello" := runes "HHAHLOW" ]}
    (english.Globals ∅ false) (runes "(Hangulize!)")
  = (runes "(Hangulize!)", None,
     english.Globals {[ runes "hello" := runes "HHAHLOW" ]} true).
Proof.
  assert (H : Forall (fun ch => english.ascii_space ch = false)
                (runes "(Hangulize!)"))
    by (repeat constructor).
  split; [exact H|].
  apply (transliterate_miss english.ascii_space english.ascii_lower
           {[ runes "hello" := runes "HHAHLOW" ]} (english.Globals ∅ false) _ H).
  apply lookup_singleton_ne. vm_compute. discriminate.
Defined.

(** * Further properties of package [jamo] *)

Section Transport.

Context {pkg : hangul.Package}.

Lemma pending_length a :
  length (pending a) = if is_empty a then 0%nat else 1%nat.
Proof.
  destruct (is_empty a) eqn:E.
  - apply is_empty_true in E. subst. reflexivity.
  - rewrite (pending_filled a E). reflexivity.
Qed.

Lemma smart_attach_transport c d ch :
  lmt d = lmt c ->
  smart_attach d ch
  = match smart_attach c ch with
    | Some c2 => Some (Composer (r d) (buf d) (lmt c2))
    | None => None
    end.
Proof.
  intros E. unfold smart_attach. rewrite E.
  destruct (_ && _); [|reflexivity].
  destruct (hangul.Split ch) as [[ld md] tl]. destruct (ld =? ieung); reflexivity.
Qed.

(** A pass depends on the reader through what [read] returns only, and
    on the output buffer not at all: it appends to it. *)
Lemma iteration_transport c d v ch isTail err c1 d1 b0 :
  read c = (ch, isTail, err, c1) -> read d = (ch, isTail, err, d1) ->
  buf d1 = b0 ++ buf c1 -> lmt d1 = lmt c1 ->
  iteration d v
  = (fst (fst (iteration c v)),
     Composer (r d1) (b0 ++ buf (snd (fst (iteration c v))))
       (lmt (snd (fst (iteration c v)))),
     snd (iteration c v)) /\
  r (snd (fst (iteration c v))) = r c1.
Proof.
  intros Hc Hd Hb Hl.
  pose proof (smart_attach_transport c1 d1 ch Hl) as Ha.
  destruct (smart_attach c1 ch) as [c2|] eqn:Hac.
  { rewrite (iteration_attach _ _ _ _ _ _ _ Hc Hac),
      (iteration_attach _ _ _ _ _ _ _ Hd Ha). cbn [fst snd].
    destruct (smart_attach_inv _ _ _ Hac) as (_ & _ & _ & ->). cbn [buf lmt r].
    rewrite Hb. auto. }
  destruct err as [e|].
  { rewrite (iteration_eof _ _ _ _ _ _ Hc Hac), (iteration_eof _ _ _ _ _ _ Hd Ha).
    cbn [fst snd]. rewrite <- Hb, <- Hl. destruct d1; auto. }
  destruct (hangul.IsHangul ch) eqn:Hh.
  2:{ rewrite (iteration_other _ _ _ _ _ Hc Hac Hh), (iteration_other _ _ _ _ _ Hd Ha Hh).
      cbn [fst snd buf lmt r].
      destruct (negb (score v =? -1)); rewrite ?write_eq; cbn [buf lmt];
        rewrite Hb, ?Hl, <- ?app_assoc; auto. }
  destruct (hangul.IsJaeum ch) eqn:Hj.
  { rewrite (iteration_jamo _ _ _ _ _ Hc Hac Hh (or_introl Hj)),
      (iteration_jamo _ _ _ _ _ Hd Ha Hh (or_introl Hj)).
    cbn [fst snd buf lmt r]. rewrite Hl.
    destruct (flushes _ _ _); rewrite ?write_eq; cbn [buf lmt r];
      rewrite Hb, ?Hl, <- ?app_assoc; auto. }
  destruct (hangul.IsMoeum ch) eqn:Hm.
  { rewrite (iteration_jamo _ _ _ _ _ Hc Hac Hh (or_intror Hm)),
      (iteration_jamo _ _ _ _ _ Hd Ha Hh (or_intror Hm)).
    cbn [fst snd buf lmt r]. rewrite Hl.
    destruct (flushes _ _ _); rewrite ?write_eq; cbn [buf lmt r];
      rewrite Hb, ?Hl, <- ?app_assoc; auto. }
  rewrite (iteration_composed _ _ _ _ _ Hc Hac Hh Hj Hm),
    (iteration_composed _ _ _ _ _ Hd Ha Hh Hj Hm).
  cbn [fst snd buf lmt r]. rewrite Hb, Hl, <- app_assoc. auto.
Qed.

Lemma read_frame rs b0 b a :
  read (Composer rs (b0 ++ b) a)
  = (fst (fst (fst (read (Composer rs b a)))), snd (fst (fst (read (Composer rs b a)))),
     snd (fst (read (Composer rs b a))),
     Composer (r (snd (read (Composer rs b a)))) (b0 ++ b) a).
Proof.
  unfold read. cbn [r buf lmt].
  destruct (read_runes false rs) as [[[ch isTail] err] rs']. reflexivity.
Qed.

Lemma iteration_frame rs b0 b a v :
  iteration (Composer rs (b0 ++ b) a) v
  = (fst (fst (iteration (Composer rs b a) v)),
     Composer (r (snd (fst (iteration (Composer rs b a) v))))
       (b0 ++ buf (snd (fst (iteration (Composer rs b a) v))))
       (lmt (snd (fst (iteration (Composer rs b a) v)))),
     snd (iteration (Composer rs b a) v)).
Proof.
  destruct (read (Composer rs b a)) as [[[ch isTail] err] c1] eqn:Hc.
  pose proof (read_frame rs b0 b a) as Hd. rewrite Hc in Hd. cbn [fst snd] in Hd.
  destruct (read_spec _ _ _ _ _ Hc) as (Hb & Hl & _). cbn [buf lmt] in Hb, Hl.
  destruct (iteration_transport _ _ v _ _ _ _ _ b0 Hc Hd) as [E Hr].
  - cbn [buf]. rewrite Hb. reflexivity.
  - cbn [lmt]. rewrite Hl. reflexivity.
  - rewrite E, Hr. reflexivity.
Qed.

Lemma loop_frame n : forall rs b0 b a v,
  loop n (Composer rs (b0 ++ b) a) v
  = match loop n (Composer rs b a) v with
    | Some (c', v') => Some (Composer (r c') (b0 ++ buf c') (lmt c'), v')
    | None => None
    end.
Proof.
  induction n as [|n IH]; intros rs b0 b a v; [reflexivity|].
  cbn [loop]. rewrite iteration_frame.
  destruct (iteration (Composer rs b a) v) as [[fl [rs' b' a']] v'] eqn:E.
  cbn [fst snd r buf lmt]. destruct fl; [apply IH | reflexivity].
Qed.

Lemma finish_frame n rs b0 b a v :
  finish (loop n (Composer rs (b0 ++ b) a) v)
  = match finish (loop n (Composer rs b a) v) with
    | Some out => Some (b0 ++ out)
    | None => None
    end.
Proof.
  rewrite loop_frame. destruct (loop n (Composer rs b a) v) as [[c' v']|];
    [|reflexivity].
  cbn [finish]. destruct (negb _); rewrite ?write_eq; cbn [buf lmt];
    rewrite <- ?app_assoc; reflexivity.
Qed.

(** X1: [Compose] only appends to the output buffer: what the buffer
    holds at the start stays in front of the result, unread and
    unchanged. *)
Theorem compose_appends (fuel : nat) (rs b0 b : list rune) (a : slots) :
  Compose fuel (Composer rs (b0 ++ b) a)
  = match Compose fuel (Composer rs b a) with
    | Some out => Some (b0 ++ out)
    | None => None
    end.
Proof. rewrite !Compose_finish. apply finish_frame. Qed.

End Transport.

(** ** The size of the output *)

Section Size.

Context {pkg : hangul.Package}.

(** What a state can still put out: the output so far, the syllable in the
    buffer and the runes left to read. *)
Lemma iteration_size c v :
  (length (buf (snd (fst (iteration c v))))
   + length (pending (lmt (snd (fst (iteration c v)))))
   + length (strip (r (snd (fst (iteration c v)))))
   <= length (buf c) + length (pending (lmt c)) + length (strip (r c)))%nat.
Proof.
  assert (P1 : forall a, (length (pending a) <= 1)%nat).
  { intros a. rewrite pending_length. destruct (is_empty a); lia. }
  destruct (iteration_step c v)
    as [ch isTail err c1 c2 Hr Ha|ch isTail e c1 Hr Ha|ch isTail c1 Hr Ha Hh
       |ch isTail c1 Hr Ha Hh Hj Hm|ch isTail c1 Hr Ha Hh Hjm];
    cbn [fst snd];
    destruct (read_spec _ _ _ _ _ Hr) as (Hb & Hl & Hcase);
    rewrite <- Hb, <- Hl;
    assert (Hs : (length (strip (r c1)) <= length (strip (r c)))%nat)
      by (destruct Hcase as [(_ & _ & _ & -> & ->)|(_ & _ & _ & ->)]; simpl; lia).
  - destruct (smart_attach_inv _ _ _ Ha) as (Hl1 & _ & _ & ->). cbn [buf lmt r].
    rewrite !pending_length.
    assert (E1 : is_empty (lmt c1) = false)
      by (unfold is_empty; destruct (Z.eqb_spec (s_lead (lmt c1)) 0); [contradiction|reflexivity]).
    assert (E2 : is_empty (Slots (s_lead (lmt c1)) (snd (fst (hangul.Split ch)))
                                 (snd (hangul.Split ch))) = false)
      by (unfold is_empty; cbn [s_lead];
          destruct (Z.eqb_spec (s_lead (lmt c1)) 0); [contradiction|reflexivity]).
    rewrite E1, E2. lia.
  - lia.
  - destruct Hcase as [(E & _)|(_ & _ & _ & ->)]; [discriminate|].
    assert (P0 : length (pending empty_slots) = 0%nat) by reflexivity.
    cbn [buf lmt r length]. destruct (negb _); rewrite ?write_eq; cbn [buf lmt];
      rewrite ?length_app; cbn [length]; lia.
  - destruct Hcase as [(E & _)|(_ & _ & _ & ->)]; [discriminate|].
    cbn [buf lmt r length]. rewrite length_app.
    specialize (P1 (Slots (fst (fst (hangul.Split ch))) (snd (fst (hangul.Split ch)))
                          (snd (hangul.Split ch)))). lia.
  - destruct Hcase as [(E & _)|(_ & _ & _ & ->)]; [discriminate|].
    cbn [length].
    destruct (flushes _ _ _); rewrite ?write_eq; cbn [buf lmt r];
      rewrite ?length_app;
      match goal with |- context [pending (set ?a ?i ?x)] =>
        specialize (P1 (set a i x)) end; lia.
Qed.

Lemma loop_size n : forall c v c' v',
  loop n c v = Some (c', v') ->
  (length (buf c') + length (pending (lmt c'))
   <= length (buf c) + length (pending (lmt c)) + length (strip (r c)))%nat.
Proof.
  induction n as [|n IH]; intros c v c' v' H; [discriminate|].
  cbn [loop] in H. pose proof (iteration_size c v) as S.
  destruct (iteration c v) as [[fl c1] v1]. cbn [fst snd] in S.
  destruct fl.
  - apply IH in H. lia.
  - injection H as <- <-. lia.
Qed.

(** X2: the output of [ComposeHangul] never holds more runes than the
    input holds runes other than hyphens. *)
Theorem output_not_longer (word out : list rune) :
  ComposeHangul word = Some out -> (length out <= length (strip word))%nat.
Proof.
  rewrite ComposeHangul_finish.
  destruct (loop _ _ _) as [[c' v']|] eqn:E; [|discriminate].
  cbn [finish]. intros [= <-]. apply loop_size in E. cbn [buf lmt r length] in E.
  rewrite pending_empty in E. cbn [length] in E.
  destruct (negb _); rewrite ?write_eq; cbn [buf]; rewrite ?length_app; lia.
Qed.

End Size.

Lemma output_not_longer_witness :
  @ComposeHangul hangul.model (runes "ㅎㅏ-ㄴ, ㄱㅡ-ㄹ!") = Some (runes "한, 글!") /\
  (length (runes "한, 글!") <= length (strip (runes "ㅎㅏ-ㄴ, ㄱㅡ-ㄹ!")))%nat.
Proof.
  assert (H : @ComposeHangul hangul.model (runes "ㅎㅏ-ㄴ, ㄱㅡ-ㄹ!")
              = Some (runes "한, 글!")) by reflexivity.
  split; [exact H|].
  exact (@output_not_longer hangul.model _ _ H).
Defined.

(** ** Runes that are not Hangul *)

Lemma index_of_bound ch x table :
  index_of ch (x :: table) <= Z.of_nat (length table).
Proof.
  revert x. induction table as [|y table IH]; intros x; cbn [index_of existsb].
  - destruct (x =? ch); cbn; lia.
  - destruct (x =? ch); [cbn [length]; lia|].
    destruct (_ || _); [|cbn [length]; lia].
    specialize (IH y). cbn [index_of] in IH. cbn [length]. lia.
Qed.

Lemma model_joins_hangul l m t :
  @hangul.IsHangul hangul.model (@hangul.Join hangul.model l m t) = true.
Proof.
  cbn [hangul.Join hangul.IsHangul hangul.model].
  pose proof (index_of_nonneg l leads). pose proof (index_of_nonneg m vowels).
  pose proof (index_of_nonneg t tails).
  pose proof (index_of_bound l _ _ : index_of l leads <= _) as B1.
  pose proof (index_of_bound m _ _ : index_of m vowels <= _) as B2.
  pose proof (index_of_bound t _ _ : index_of t tails <= _) as B3.
  cbn [length] in B1, B2, B3. unfold is_syllable, syllable. lia.
Qed.

Section Others.

Context {pkg : hangul.Package}.
Hypothesis Hout : hangul.splits_only_syllables pkg.
Hypothesis Hcls : hangul.classifies_syllables pkg.
Hypothesis Hjoin : forall l m t, hangul.IsHangul (hangul.Join l m t) = true.

Lemma others_app xs ys : others (xs ++ ys) = others xs ++ others ys.
Proof. apply List.filter_app. Qed.

Lemma others_pending a : others (pending a) = [].
Proof.
  destruct (is_empty a) eqn:E.
  - apply is_empty_true in E. subst. reflexivity.
  - rewrite (pending_filled a E). unfold others. cbn [List.filter].
    rewrite Hjoin. reflexivity.
Qed.

Lemma others_hangul ch rs : hangul.IsHangul ch = true -> others (ch :: rs) = others rs.
Proof. intros H. unfold others. cbn [List.filter]. rewrite H. reflexivity. Qed.

Lemma others_other ch rs :
  hangul.IsHangul ch = false -> others (ch :: rs) = ch :: others rs.
Proof. intros H. unfold others. cbn [List.filter]. rewrite H. reflexivity. Qed.

Lemma iteration_others c v :
  others (buf (snd (fst (iteration c v))))
    ++ others (strip (r (snd (fst (iteration c v)))))
  = others (buf c) ++ others (strip (r c)).
Proof.
  destruct (iteration_step c v)
    as [ch isTail err c1 c2 Hr Ha|ch isTail e c1 Hr Ha|ch isTail c1 Hr Ha Hh
       |ch isTail c1 Hr Ha Hh Hj Hm|ch isTail c1 Hr Ha Hh Hjm];
    cbn [fst snd];
    destruct (read_spec _ _ _ _ _ Hr) as (Hb & Hl & Hcase); rewrite <- Hb.
  - destruct (smart_attach_inv _ _ _ Ha) as (_ & _ & Hs & ->). cbn [buf r].
    destruct Hcase as [(_ & _ & _ & -> & ->)|(_ & _ & _ & ->)]; [reflexivity|].
    rewrite others_hangul; [reflexivity|].
    destruct (hangul.is_syllable ch) eqn:Hsyl; [apply Hcls, Hsyl|].
    exfalso. exact (Hout ch Hsyl Hs).
  - destruct Hcase as [(_ & _ & _ & -> & ->)|(E & _)]; [reflexivity | discriminate].
  - destruct Hcase as [(E & _)|(_ & _ & _ & ->)]; [discriminate|].
    cbn [buf r]. rewrite (others_other ch _ Hh), others_app, (others_other ch [] Hh).
    destruct (negb _); rewrite ?write_eq; cbn [buf];
      rewrite ?others_app, ?others_pending, ?app_nil_r, <- ?app_assoc; reflexivity.
  - destruct Hcase as [(E & _)|(_ & _ & _ & ->)]; [discriminate|].
    cbn [buf r]. rewrite (others_hangul ch _ Hh), others_app, others_pending, app_nil_r.
    reflexivity.
  - destruct Hcase as [(E & _)|(_ & _ & _ & ->)]; [discriminate|].
    rewrite (others_hangul ch _ Hh).
    destruct (flushes _ _ _); rewrite ?write_eq; cbn [buf r];
      rewrite ?others_app, ?others_pending, ?app_nil_r; reflexivity.
Qed.

Lemma loop_others n : forall c v c' v',
  loop n c v = Some (c', v') ->
  others (buf c') = others (buf c) ++ others (strip (r c)).
Proof.
  induction n as [|n IH]; intros c v c' v' H; [discriminate|].
  cbn [loop] in H. pose proof (iteration_others c v) as S.
  destruct (iteration c v) as [[fl c1] v1] eqn:E. cbn [fst snd] in S.
  destruct fl.
  - rewrite (IH _ _ _ _ H). exact S.
  - injection H as <- <-. rewrite <- S.
    assert (Hr : strip (r c1) = []).
    { pose proof (iteration_step c v) as St. rewrite E in St.
      inversion St as [| ch isTail e c1' Hr Ha | | |]; subst.
      destruct (read_spec _ _ _ _ _ Hr) as (_ & _ & [(_ & _ & _ & -> & _)|(D & _)]);
        [reflexivity | discriminate]. }
    rewrite Hr. cbn. rewrite app_nil_r. reflexivity.
Qed.

(** X3: the runes of the input that are not Hangul, its hyphens apart,
    are the runes of the output that are not Hangul, in the same order:
    none is dropped, changed or moved, wherever it stands among the
    Jamo. *)
Theorem other_runes_pass (word : list rune) :
  exists out,
    ComposeHangul word = Some out /\ others out = others (strip word).
Proof.
  destruct (loop_terminates Hout (length word + 2) (Composer word [] empty_slots)
              (Locals 0 0)) as [[c v] E]; [cbn [r]; lia|].
  exists (buf (if negb (prevScore v =? -1) then write c else c)). split.
  - rewrite ComposeHangul_finish, E. reflexivity.
  - apply loop_others in E. cbn [buf r others List.filter app] in E.
    destruct (negb _); rewrite ?write_eq; cbn [buf];
      rewrite ?others_app, ?others_pending, ?app_nil_r; exact E.
Qed.

End Others.

Lemma other_runes_pass_witness :
  exists out,
    @ComposeHangul hangul.model (runes "ㅎㅏ-ㄴ, ㄱㅡ-ㄹ (ok)!") = Some out /\
    @others hangul.model out = @others hangul.model (strip (runes "ㅎㅏ-ㄴ, ㄱㅡ-ㄹ (ok)!")).
Proof.
  exact (@other_runes_pass hangul.model model_splits_only_syllables
           model_classifies_syllables model_joins_hangul
           (runes "ㅎㅏ-ㄴ, ㄱㅡ-ㄹ (ok)!")).
Defined.

(** ** Composed text *)

(** Precomposed syllables and other runes pass through the buffer as
    they are. *)
Lemma loop_composed_text {pkg : hangul.Package} :
  hangul.classifies_syllables pkg -> hangul.joins_split pkg ->
  forall ws n b a sc p,
    Forall (fun ch => hangul.is_syllable ch = true \/
                      (hangul.IsHangul ch = false /\ ch <> hyphen)) ws ->
    s_lead a = 0 \/ s_medial a <> 0 -> 0 <= sc -> (length ws < n)%nat ->
    finish (loop n (Composer ws b a) (Locals sc p)) = Some (b ++ pending a ++ ws).
Proof.
  intros Hcls Hjs. induction ws as [|s ws IH]; intros n b a sc p Hws Ha Hsc Hn;
    (destruct n as [|n]; [simpl in Hn; lia|]).
  - assert (Hn' : smart_attach (Composer [] b a) 0 = None).
    { destruct Ha; [apply smart_attach_no_lead | apply smart_attach_medial]; assumption. }
    rewrite (loop_break _ _ _ _ _
               (iteration_eof _ (Locals sc p) _ _ _ _ (read_end b a) Hn')).
    cbn [finish prevScore score]. destruct (Z.eqb_spec sc (-1)); [lia|].
    cbn [negb]. rewrite write_eq, app_nil_r. reflexivity.
  - inversion Hws as [|? ? Hs Hws']; subst.
    assert (Hn' : smart_attach (Composer ws b a) s = None).
    { destruct Ha; [apply smart_attach_no_lead | apply smart_attach_medial]; assumption. }
    simpl in Hn. destruct Hs as [Hs | [Hh Hhy]].
    + assert (Hh : s <> hyphen).
      { unfold hangul.is_syllable, hyphen in *. lia. }
      destruct (Hcls s Hs) as (Hhan & Hj & Hm). destruct (Hjs s Hs) as (Hl0 & Hm0 & E).
      rewrite (loop_continue _ _ _ _ _
                 (iteration_composed _ (Locals sc p) _ _ _
                    (read_rune ws b a s Hh) Hn' Hhan Hj Hm)).
      cbn [r buf lmt score].
      rewrite IH; [|assumption|right; exact Hm0|unfold tail; lia|lia].
      rewrite (pending_full _ _ _ Hl0 Hm0), E, <- !app_assoc. reflexivity.
    + rewrite (loop_continue _ _ _ _ _
                 (iteration_other _ (Locals sc p) _ _ _
                    (read_rune ws b a s Hhy) Hn' Hh)).
      cbn [r buf lmt score]. destruct (Z.eqb_spec sc (-1)); [lia|]. cbn [negb].
      rewrite write_eq. cbn [buf lmt].
      rewrite IH; [|assumption|left; reflexivity|assumption|lia].
      change (pending empty_slots) with (@nil rune). cbn [app].
      rewrite <- !app_assoc. reflexivity.
Qed.

(** X4: text that is already composed comes back as it is: on a string
    of precomposed syllables and of runes that are not Hangul, the hyphen
    apart, [ComposeHangul] is the identity. *)
Theorem compose_composed_text (pkg : hangul.Package) :
  hangul.classifies_syllables pkg -> hangul.joins_split pkg ->
  forall word,
    Forall (fun ch => hangul.is_syllable ch = true \/
                      (hangul.IsHangul ch = false /\ ch <> hyphen)) word ->
    ComposeHangul word = Some word.
Proof.
  intros Hcls Hjs word Hword. rewrite ComposeHangul_finish.
  rewrite (loop_composed_text Hcls Hjs word _ [] empty_slots 0 0 Hword);
    [reflexivity | left; reflexivity | lia | lia].
Qed.

Lemma compose_composed_text_witness :
  @ComposeHangul hangul.model (runes "한글, abc 라이즈!") = Some (runes "한글, abc 라이즈!").
Proof.
  assert (H : Forall (fun ch => hangul.is_syllable ch = true \/
                                (@hangul.IsHangul hangul.model ch = false /\ ch <> hyphen))
                (runes "한글, abc 라이즈!")).
  { let l := eval vm_compute in (runes "한글, abc 라이즈!") in
    replace (runes "한글, abc 라이즈!") with l by (vm_compute; reflexivity).
    repeat (apply List.Forall_cons;
            [first [left; reflexivity | right; split; [reflexivity | discriminate]]|]).
    apply List.Forall_nil. }
  exact (compose_composed_text hangul.model model_classifies_syllables
           model_joins_split (runes "한글, abc 라이즈!") H).
Defined.

(** ** The runes of the output *)

Section Alphabet.

Context {pkg : hangul.Package}.
Variable P : rune -> Prop.
Hypothesis Pjoin : forall l m t, l <> 0 -> m <> 0 -> P (hangul.Join l m t).
Hypothesis Pother : forall ch, hangul.IsHangul ch = false -> ch <> hyphen -> P ch.

Lemma pending_alphabet a : Forall P (pending a).
Proof.
  destruct (is_empty a) eqn:E.
  - apply is_empty_true in E. subst. constructor.
  - rewrite (pending_filled a E). constructor; [|constructor]. apply Pjoin.
    + destruct (Z.eqb_spec (s_lead a) 0); [unfold ieung; lia | assumption].
    + destruct (Z.eqb_spec (s_medial a) 0); [unfold eu; lia | assumption].
Qed.

Lemma write_alphabet c : Forall P (buf c) -> Forall P (buf (write c)).
Proof.
  intros H. rewrite write_eq. cbn [buf]. apply Forall_app. split;
    [exact H | apply pending_alphabet].
Qed.

Lemma iteration_alphabet c v :
  Forall P (buf c) -> Forall P (buf (snd (fst (iteration c v)))).
Proof.
  intros Hbuf.
  destruct (iteration_step c v)
    as [ch isTail err c1 c2 Hr Ha|ch isTail e c1 Hr Ha|ch isTail c1 Hr Ha Hh
       |ch isTail c1 Hr Ha Hh Hj' Hm|ch isTail c1 Hr Ha Hh Hjm];
    cbn [fst snd];
    destruct (read_spec _ _ _ _ _ Hr) as (Hb & Hl & Hcase);
    assert (H1 : Forall P (buf c1)) by (rewrite Hb; exact Hbuf).
  - destruct (smart_attach_inv _ _ _ Ha) as (_ & _ & _ & ->). exact H1.
  - exact H1.
  - destruct Hcase as [(E' & _)|(_ & Hch & _)]; [discriminate|].
    cbn [buf]. apply Forall_app. split.
    + destruct (negb _); [apply write_alphabet|]; exact H1.
    + constructor; [apply Pother; assumption | constructor].
  - cbn [buf]. apply Forall_app. split; [exact H1 | apply pending_alphabet].
  - cbn [buf]. destruct (flushes _ _ _); [apply write_alphabet|]; exact H1.
Qed.

Lemma loop_alphabet n : forall c v c' v',
  loop n c v = Some (c', v') -> Forall P (buf c) -> Forall P (buf c').
Proof.
  induction n as [|n IH]; intros c v c' v' H Hbuf; [discriminate|].
  cbn [loop] in H. pose proof (iteration_alphabet c v Hbuf) as H1.
  destruct (iteration c v) as [[fl c1] v1]. cbn [fst snd] in H1.
  destruct fl; [eapply IH; eassumption|]. injection H as <- <-. exact H1.
Qed.

Lemma ComposeHangul_alphabet word out :
  ComposeHangul word = Some out -> Forall P out.
Proof.
  rewrite ComposeHangul_finish.
  destruct (loop _ _ _) as [[c v]|] eqn:E; [|discriminate].
  cbn [finish]. intros [= <-]. apply loop_alphabet in E; [|constructor].
  destruct (negb _); [apply write_alphabet|]; exact E.
Qed.

End Alphabet.

Lemma model_joins_syllable l m t :
  hangul.is_syllable (@hangul.Join hangul.model l m t) = true.
Proof.
  cbn [hangul.Join hangul.model].
  pose proof (index_of_nonneg l leads). pose proof (index_of_nonneg m vowels).
  pose proof (index_of_nonneg t tails).
  pose proof (index_of_bound l _ _ : index_of l leads <= _) as B1.
  pose proof (index_of_bound m _ _ : index_of m vowels <= _) as B2.
  pose proof (index_of_bound t _ _ : index_of t tails <= _) as B3.
  cbn [length] in B1, B2, B3. unfold is_syllable, syllable. lia.
Qed.



(** X6: composing is idempotent: given a [Join] that yields precomposed
    syllables, the output of [ComposeHangul] composes to itself. *)
Theorem compose_idempotent (pkg : hangul.Package) :
  hangul.classifies_syllables pkg -> hangul.joins_split pkg ->
  (forall l m t, l <> 0 -> m <> 0 -> hangul.is_syllable (hangul.Join l m t) = true) ->
  forall word out,
    ComposeHangul word = Some out -> ComposeHangul out = Some out.
Proof.
  intros Hcls Hjs Hsyl word out H.
  assert (Hout : Forall (fun ch => hangul.is_syllable ch = true \/
                                   (hangul.IsHangul ch = false /\ ch <> hyphen)) out).
  { revert H. apply ComposeHangul_alphabet.
    - intros l m t Hl Hm. left. apply Hsyl; assumption.
    - intros ch Hh Hhy. right. split; assumption. }
  rewrite ComposeHangul_finish.
  rewrite (loop_composed_text Hcls Hjs out _ [] empty_slots 0 0 Hout);
    [reflexivity | left; reflexivity | lia | lia].
Qed.

Lemma compose_idempotent_witness :
  @ComposeHangul hangul.model (runes "ㅎㅏ-ㄴ, ㄱㅡ-ㄹ!") = Some (runes "한, 글!") /\
  @ComposeHangul hangul.model (runes "한, 글!") = Some (runes "한, 글!").
Proof.
  assert (H : @ComposeHangul hangul.model (runes "ㅎㅏ-ㄴ, ㄱㅡ-ㄹ!")
              = Some (runes "한, 글!")) by reflexivity.
  split; [exact H|].
  exact (compose_idempotent hangul.model model_classifies_syllables model_joins_split
           (fun l m t _ _ => model_joins_syllable l m t) _ _ H).
Defined.

(** ** When the loop ends *)

Section Ends.

Context {pkg : hangul.Package}.

(** Unless [Split] reports the lead [ieung] and no medial for the zero
    rune, the loop ends within [length (r c) + 2] passes. *)
Lemma loop_ends :
  (fst (fst (hangul.Split 0)) = ieung -> snd (fst (hangul.Split 0)) <> 0) ->
  forall n c v, (length (r c) + 1 < n)%nat -> exists x, loop n c v = Some x.
Proof.
  intros Hz. induction n as [|n IH]; intros c v Hn; [lia|].
  cbn [loop]. remember (iteration c v) as it eqn:Eit.
  pose proof (iteration_step c v) as S. rewrite <- Eit in S.
  destruct S as [ch isTail err c1 c2 Hr Ha|ch isTail e c1 Hr Ha|ch isTail c1 Hr Ha Hh
                |ch isTail c1 Hr Ha Hh Hj Hm|ch isTail c1 Hr Ha Hh Hjm];
    try (eexists; reflexivity);
    destruct (read_spec _ _ _ _ _ Hr) as (Hb & Hl & Hcase).
  - destruct (smart_attach_inv _ _ _ Ha) as (_ & _ & Hs & ->).
    destruct Hcase as [(_ & -> & _ & Hr1 & _)|(_ & _ & Hlen & _)].
    + destruct n as [|n]; [lia|].
      erewrite loop_break; [eexists; reflexivity|].
      eapply iteration_eof.
      * cbn [r]. rewrite Hr1. apply read_end.
      * apply smart_attach_medial. cbn [lmt s_medial]. apply Hz, Hs.
    + apply IH. cbn [r]. lia.
  - destruct Hcase as [(E & _)|(_ & _ & Hlen & _)]; [discriminate|].
    apply IH. cbn [r]. lia.
  - destruct Hcase as [(E & _)|(_ & _ & Hlen & _)]; [discriminate|].
    apply IH. cbn [r]. lia.
  - destruct Hcase as [(E & _)|(_ & _ & Hlen & _)]; [discriminate|].
    apply IH. cbn [r]. destruct (flushes _ _ _); [rewrite write_eq|]; cbn [r]; lia.
Qed.

(** With such a [Split], a lone consonant keeps the loop going for ever. *)
Lemma loop_lone_consonant :
  hangul.classifies_jamo pkg ->
  fst (fst (hangul.Split 0)) = ieung -> snd (fst (hangul.Split 0)) = 0 ->
  forall n, loop n (Composer [0x3131] [] empty_slots) (Locals 0 0) = None.
Proof.
  intros Hcls Hl Hm n. destruct n as [|n]; [reflexivity|].
  rewrite (loop_continue _ _ _ _ _
             (iteration_lead_open Hcls [] [] empty_slots 0 0 0x3131
                eq_refl ltac:(lia)
                (smart_attach_no_lead (Composer [] [] empty_slots) _ eq_refl))).
  assert (Ha : forall t,
             smart_attach (Composer [] (pending empty_slots) (Slots 0x3131 0 t)) 0
             = Some (Composer [] (pending empty_slots)
                       (Slots 0x3131 0 (snd (hangul.Split 0))))).
  { intros t. unfold smart_attach. cbn [lmt s_lead s_medial r buf].
    destruct (hangul.Split 0) as [[ld md] tl]. cbn [fst snd] in *. subst ld md.
    reflexivity. }
  destruct n as [|n]; [reflexivity|].
  rewrite (loop_continue _ _ _ _ _
             (iteration_attach _ _ _ _ _ _ _ (read_end _ _) (Ha 0))).
  apply loop_stuck. exact (iteration_attach _ _ _ _ _ _ _ (read_end _ _) (Ha _)).
Qed.

End Ends.

(** X7: [ComposeHangul] returns on every input exactly when [Split] does
    not report the lead [ieung] with an empty medial for the zero rune,
    the rune that [read] hands out at the end of the input: with such a
    [Split] the smart attach at the head of the loop body, which comes
    before the test of the read error, repeats for ever on a word that
    ends in a lone lead. *)
Theorem compose_ends_iff (pkg : hangul.Package) :
  hangul.classifies_jamo pkg ->
  ((forall word, exists out, ComposeHangul word = Some out) <->
   (fst (fst (hangul.Split 0)) = ieung -> snd (fst (hangul.Split 0)) <> 0)).
Proof.
  intros Hcls. split.
  - intros Hall Hl Hm. destruct (Hall [0x3131]) as [out E].
    rewrite ComposeHangul_finish, (loop_lone_consonant Hcls Hl Hm) in E. discriminate.
  - intros Hz word.
    destruct (loop_ends Hz (length word + 2) (Composer word [] empty_slots)
                (Locals 0 0)) as [[c v] E]; [cbn [r]; lia|].
    rewrite ComposeHangul_finish, E. eexists. reflexivity.
Qed.

Lemma compose_ends_iff_witness :
  exists out, @ComposeHangul hangul.model (runes "ㄱ") = Some out.
Proof.
  refine (proj2 (compose_ends_iff hangul.model model_classifies_jamo) _ (runes "ㄱ")).
  intros H. discriminate H.
Defined.

(** ** The scores *)

Section Scores.

Context {pkg : hangul.Package}.

(** At the end of the loop both variables hold a score. *)
Lemma loop_score_range n : forall c v c' v',
  loop n c v = Some (c', v') -> 0 <= score v <= 2 ->
  0 <= score v' <= 2 /\ prevScore v' = score v'.
Proof.
  induction n as [|n IH]; intros c v c' v' H Hv; [discriminate|].
  cbn [loop] in H. pose proof (iteration_score_range c v Hv) as H1.
  pose proof (iteration_step c v) as St.
  destruct (iteration c v) as [[fl c1] v1]. cbn [snd] in H1.
  destruct fl; [exact (IH _ _ _ _ H H1)|]. injection H as <- <-.
  split; [exact H1|]. inversion St; subst. reflexivity.
Qed.

(** X8: the letter left in the buffer is always written at the end:
    after the loop [prevScore] holds a score, never -1, so the test before
    the last [write] of [Compose] always succeeds. *)
Theorem compose_final_write (fuel : nat) (c c' : composer) (v' : locals) :
  loop fuel c (Locals 0 0) = Some (c', v') ->
  0 <= prevScore v' <= 2 /\ Compose fuel c = Some (buf c' ++ pending (lmt c')).
Proof.
  intros H. destruct (loop_score_range _ _ _ _ _ H) as [Hs Hp]; [cbn; lia|].
  split; [lia|]. unfold Compose. rewrite H.
  destruct (Z.eqb_spec (prevScore v') (-1)); [lia|]. cbn [negb].
  rewrite write_eq. reflexivity.
Qed.

(** X9: the exception in the flush test of the Jamo branch never
    applies: a tail score is above a medial score, so the test of the
    scores fails before it.  On a decomposed Jamo the buffer is flushed
    exactly when the score of the Jamo is at most the score of the pass
    before, whatever the tail slot holds. *)
Theorem jamo_flush_by_score_alone (c : composer) (v : locals) (ch : rune)
    (isTail : bool) (c1 : composer) :
  read c = (ch, isTail, None, c1) -> smart_attach c1 ch = None ->
  hangul.IsHangul ch = true ->
  hangul.IsJaeum ch = true \/ hangul.IsMoeum ch = true ->
  let s := if hangul.IsMoeum ch then medial else if isTail then tail else lead in
  let c2 := if s <=? score v then write c1 else c1 in
  iteration c v = (Continue, Composer (r c2) (buf c2) (set (lmt c2) s ch), Locals s (score v)).
Proof.
  intros Hr Ha Hh Hjm. rewrite (iteration_jamo _ _ _ _ _ Hr Ha Hh Hjm).
  cbv zeta. rewrite flushes_leb. reflexivity.
Qed.

End Scores.

Lemma compose_final_write_witness :
  @loop hangul.model 4 (Composer (runes "ab") [] (Slots 0x3131 0 0)) (Locals 0 0)
  = Some (Composer [] (runes "그ab") empty_slots, Locals 0 0) /\
  @Compose hangul.model 4 (Composer (runes "ab") [] (Slots 0x3131 0 0))
  = Some (runes "그ab").
Proof.
  assert (H : @loop hangul.model 4 (Composer (runes "ab") [] (Slots 0x3131 0 0))
                (Locals 0 0)
              = Some (Composer [] (runes "그ab") empty_slots, Locals 0 0))
    by reflexivity.
  split; [exact H|].
  exact (proj2 (@compose_final_write hangul.model _ _ _ _ H)).
Defined.

Lemma jamo_flush_by_score_alone_witness :
  @iteration hangul.model (Composer (runes "-ㄴㅏ") [] (Slots 0x3131 0x314F 0x3131))
    (Locals 1 0)
  = (Continue, Composer (runes "ㅏ") [] (Slots 0x3131 0x314F 0x3134), Locals 2 1).
Proof.
  exact (@jamo_flush_by_score_alone hangul.model
           (Composer (runes "-ㄴㅏ") [] (Slots 0x3131 0x314F 0x3131)) (Locals 1 0)
           0x3134 true (Composer (runes "ㅏ") [] (Slots 0x3131 0x314F 0x3131))
           eq_refl eq_refl eq_refl (or_introl eq_refl)).
Defined.

(** ** Reading past hyphens *)

(** X10: [read] skips hyphens.  It returns the first rune that is no
    hyphen, flagged as a tail exactly when at least one hyphen stood
    before it, however many; hyphens at the end of the input are dropped
    and the end is reported with the zero rune and a cleared flag. *)
Theorem read_skips_hyphens (k : nat) (ch : rune) (rest b : list rune) (a : slots) :
  ch <> hyphen ->
  read (Composer (repeat hyphen k ++ ch :: rest) b a)
  = (ch, negb (k =? 0)%nat, None, Composer rest b a) /\
  read (Composer (repeat hyphen k) b a) = (0, false, Some EOF, Composer [] b a).
Proof.
  intros Hch. unfold read. cbn [r buf lmt].
  assert (G : forall k t,
             read_runes t (repeat hyphen k ++ ch :: rest)
             = (ch, t || negb (k =? 0)%nat, None, rest) /\
             read_runes t (repeat hyphen k) = (0, false, Some EOF, [])).
  { clear k. induction k as [|k IH]; intros t.
    - cbn [repeat app]. rewrite read_runes_rune by assumption.
      cbn. rewrite orb_false_r. auto.
    - cbn [repeat app read_runes]. change (hyphen =? hyphen) with true. cbn iota.
      destruct (IH true) as [-> ->]. cbn. rewrite orb_true_r. auto. }
  destruct (G k false) as [-> ->]. auto.
Qed.

Lemma read_skips_hyphens_witness :
  read (Composer (runes "--ㄴㅏ") [] empty_slots)
  = (0x3134, true, None, Composer (runes "ㅏ") [] empty_slots) /\
  read (Composer (runes "--") [] empty_slots) = (0, false, Some EOF, Composer [] [] empty_slots).
Proof.
  exact (read_skips_hyphens 2 0x3134 (runes "ㅏ") [] empty_slots ltac:(discriminate)).
Defined.

(** ** Hyphens *)

Lemma read_runes_tokens rs : forall t,
  match tokens_from t rs with
  | [] => read_runes t rs = (0, false, Some EOF, [])
  | (ch, f) :: ts =>
    exists rs', read_runes t rs = (ch, f, None, rs') /\ tokens_from false rs' = ts
  end.
Proof.
  induction rs as [|x rs IH]; intros t; cbn [tokens_from read_runes]; [reflexivity|].
  destruct (x =? hyphen); [apply IH|]. exists rs. auto.
Qed.

Lemma read_tokens c :
  match tokens (r c) with
  | [] => read c = (0, false, Some EOF, Composer [] (buf c) (lmt c))
  | (ch, f) :: ts =>
    exists rs', read c = (ch, f, None, Composer rs' (buf c) (lmt c)) /\ tokens rs' = ts
  end.
Proof.
  unfold read, tokens. pose proof (read_runes_tokens (r c) false) as H.
  destruct (tokens_from false (r c)) as [|[ch f] ts].
  - rewrite H. reflexivity.
  - destruct H as (rs' & -> & E). exists rs'. auto.
Qed.

Section Tokens.

Context {pkg : hangul.Package}.

(** A pass looks at the tail flag of a Jaeum that is no Moeum only. *)
Lemma iteration_reads c d v ch t t' err c1 d1 :
  read c = (ch, t, err, c1) -> read d = (ch, t', err, d1) ->
  buf d1 = buf c1 -> lmt d1 = lmt c1 ->
  marked (ch, t) = marked (ch, t') ->
  iteration d v
  = (fst (fst (iteration c v)),
     Composer (r d1) (buf (snd (fst (iteration c v)))) (lmt (snd (fst (iteration c v)))),
     snd (iteration c v)) /\
  r (snd (fst (iteration c v))) = r c1.
Proof.
  intros Hc Hd Hb Hl Hm.
  assert (Hs : hangul.IsHangul ch = true -> hangul.IsJaeum ch = true ->
               jamo_score (hangul.IsMoeum ch) t = jamo_score (hangul.IsMoeum ch) t').
  { intros Hh Hj. unfold marked in Hm. cbn [fst snd] in Hm. rewrite Hh, Hj in Hm.
    unfold jamo_score. destruct (hangul.IsMoeum ch); [reflexivity|].
    injection Hm as Hm. rewrite !andb_true_r in Hm. rewrite Hm. reflexivity. }
  pose proof (smart_attach_transport c1 d1 ch Hl) as Ha.
  destruct (smart_attach c1 ch) as [c2|] eqn:Hac.
  { rewrite (iteration_attach _ _ _ _ _ _ _ Hc Hac),
      (iteration_attach _ _ _ _ _ _ _ Hd Ha). cbn [fst snd].
    destruct (smart_attach_inv _ _ _ Hac) as (_ & _ & _ & ->). cbn [buf lmt r].
    rewrite Hb. auto. }
  destruct err as [e|].
  { rewrite (iteration_eof _ _ _ _ _ _ Hc Hac), (iteration_eof _ _ _ _ _ _ Hd Ha).
    cbn [fst snd]. rewrite <- Hb, <- Hl. destruct d1; auto. }
  destruct (hangul.IsHangul ch) eqn:Hh.
  2:{ rewrite (iteration_other _ _ _ _ _ Hc Hac Hh), (iteration_other _ _ _ _ _ Hd Ha Hh).
      cbn [fst snd buf lmt r].
      destruct (negb (score v =? -1)); rewrite ?write_eq; cbn [buf lmt];
        rewrite Hb, ?Hl; auto. }
  destruct (hangul.IsJaeum ch) eqn:Hj.
  { rewrite (iteration_jamo _ _ _ _ _ Hc Hac Hh (or_introl Hj)),
      (iteration_jamo _ _ _ _ _ Hd Ha Hh (or_introl Hj)).
    cbn [fst snd buf lmt r]. rewrite Hl, (Hs eq_refl eq_refl).
    destruct (flushes _ _ _); rewrite ?write_eq; cbn [buf lmt r];
      rewrite Hb, ?Hl; auto. }
  destruct (hangul.IsMoeum ch) eqn:Hmo.
  { rewrite (iteration_jamo _ _ _ _ _ Hc Hac Hh (or_intror Hmo)),
      (iteration_jamo _ _ _ _ _ Hd Ha Hh (or_intror Hmo)).
    cbn [fst snd buf lmt r]. rewrite Hl, !Hmo. cbn [jamo_score].
    destruct (flushes _ _ _); rewrite ?write_eq; cbn [buf lmt r];
      rewrite Hb, ?Hl; auto. }
  rewrite (iteration_composed _ _ _ _ _ Hc Hac Hh Hj Hmo),
    (iteration_composed _ _ _ _ _ Hd Ha Hh Hj Hmo).
  cbn [fst snd buf lmt r]. rewrite Hb, Hl. auto.
Qed.

Lemma finish_reader rs c v :
  finish (Some (Composer rs (buf c) (lmt c), v)) = finish (Some (c, v)).
Proof.
  cbn [finish]. destruct (negb _); rewrite ?write_eq; reflexivity.
Qed.

(** The result depends on the reader through its tokens only. *)
Lemma loop_tokens n : forall c d v,
  map marked (tokens (r c)) = map marked (tokens (r d)) ->
  buf d = buf c -> lmt d = lmt c ->
  finish (loop n d v) = finish (loop n c v).
Proof.
  induction n as [|n IH]; intros c d v Ht Hb Hl; [reflexivity|].
  pose proof (read_tokens c) as Hc. pose proof (read_tokens d) as Hd.
  destruct (tokens (r c)) as [|[ch t] ts], (tokens (r d)) as [|[ch' t'] ts'];
    try discriminate Ht.
  - destruct (iteration_reads c d v _ _ _ _ _ _ Hc Hd Hb Hl eq_refl) as [E Hr].
    cbn [loop]. rewrite E. clear E.
    destruct (iteration c v) as [[fl c'] v']. cbn [fst snd r] in *.
    destruct fl; [|apply finish_reader].
    apply IH; [|reflexivity|reflexivity]. cbn [r]. rewrite Hr. reflexivity.
  - destruct Hc as (rs & Hc & Hts), Hd as (rs' & Hd & Hts').
    cbn [map] in Ht. injection Ht as Hch Hf Hrest.
    cbn [fst] in Hch. subst ch'.
    assert (Hm : marked (ch, t) = marked (ch, t')).
    { unfold marked. cbn [fst snd]. rewrite Hf. reflexivity. }
    destruct (iteration_reads c d v _ _ _ _ _ _ Hc Hd Hb Hl Hm) as [E Hr].
    cbn [loop]. rewrite E. clear E.
    destruct (iteration c v) as [[fl c'] v']. cbn [fst snd r] in *.
    destruct fl; [|apply finish_reader].
    apply IH; [|reflexivity|reflexivity]. cbn [r]. rewrite Hr, Hts, Hts'. exact Hrest.
Qed.

(** Fuel beyond [length (r c) + 2] changes nothing. *)
Lemma loop_fuel_any n c v :
  (length (r c) + 2 <= n)%nat -> loop n c v = loop (length (r c) + 2) c v.
Proof.
  intros Hn. destruct (loop n c v) as [x|] eqn:E.
  - symmetry. exact (loop_fuel_enough _ _ _ _ E).
  - destruct (loop (length (r c) + 2) c v) as [x|] eqn:E'; [|reflexivity].
    rewrite (loop_mono _ _ _ _ _ E' Hn) in E. discriminate.
Qed.

Lemma ComposeHangul_fuel n word :
  (length word + 2 <= n)%nat ->
  ComposeHangul word = finish (loop n (Composer word [] empty_slots) (Locals 0 0)).
Proof.
  intros Hn. rewrite ComposeHangul_finish, (loop_fuel_any n); [reflexivity|exact Hn].
Qed.

Lemma ComposeHangul_tokens word word' :
  map marked (tokens word) = map marked (tokens word') ->
  ComposeHangul word = ComposeHangul word'.
Proof.
  intros H.
  rewrite (ComposeHangul_fuel (length word + length word' + 2) word) by lia.
  rewrite (ComposeHangul_fuel (length word + length word' + 2) word') by lia.
  apply loop_tokens; [symmetry; exact H | reflexivity | reflexivity].
Qed.

End Tokens.

Lemma tokens_from_twice w1 w2 : forall t,
  tokens_from t (w1 ++ hyphen :: hyphen :: w2) = tokens_from t (w1 ++ hyphen :: w2).
Proof.
  induction w1 as [|x w1 IH]; intros t; cbn [app tokens_from]; [reflexivity|].
  destruct (x =? hyphen); [apply IH | f_equal; apply IH].
Qed.

Lemma tokens_from_trail w : forall t, tokens_from t (w ++ [hyphen]) = tokens_from t w.
Proof.
  induction w as [|x w IH]; intros t; cbn [app tokens_from]; [reflexivity|].
  destruct (x =? hyphen); [apply IH | f_equal; apply IH].
Qed.

Lemma tokens_from_mark {pkg : hangul.Package} w1 ch w2 :
  ch <> hyphen ->
  hangul.IsHangul ch = false \/ hangul.IsJaeum ch = false \/ hangul.IsMoeum ch = true ->
  forall t,
    map marked (tokens_from t (w1 ++ hyphen :: ch :: w2))
    = map marked (tokens_from t (w1 ++ ch :: w2)).
Proof.
  intros Hch Hirr. induction w1 as [|x w1 IH]; intros t; cbn [app tokens_from].
  - change (hyphen =? hyphen) with true. cbn iota.
    destruct (Z.eqb_spec ch hyphen); [contradiction|]. cbn [map]. f_equal.
    unfold marked. cbn [fst snd]. f_equal.
    destruct Hirr as [-> | [-> | ->]]; rewrite ?andb_false_r; reflexivity.
  - destruct (x =? hyphen); [apply IH | cbn [map]; f_equal; apply IH].
Qed.

(** X11: [ComposeHangul] reads its input through [read] only, and looks
    at the tail flag only on a Jaeum that is no Moeum: two inputs with the
    same runes apart from hyphens, and the same marks on such Jaeum, give
    the same result. *)
Theorem compose_by_tokens (pkg : hangul.Package) (word word' : list rune) :
  map marked (tokens word) = map marked (tokens word') ->
  ComposeHangul word = ComposeHangul word'.
Proof.
  apply ComposeHangul_tokens.
Qed.

Lemma compose_by_tokens_witness :
  map (@marked hangul.model) (tokens (runes "ㄱ-ㅏ--ㄴ-, -ㄱ-한-"))
  = map (@marked hangul.model) (tokens (runes "ㄱㅏ-ㄴ, -ㄱ한")) /\
  @ComposeHangul hangul.model (runes "ㄱ-ㅏ--ㄴ-, -ㄱ-한-")
  = @ComposeHangul hangul.model (runes "ㄱㅏ-ㄴ, -ㄱ한").
Proof.
  assert (H : map (@marked hangul.model) (tokens (runes "ㄱ-ㅏ--ㄴ-, -ㄱ-한-"))
              = map (@marked hangul.model) (tokens (runes "ㄱㅏ-ㄴ, -ㄱ한")))
    by (vm_compute; reflexivity).
  split; [exact H|].
  exact (compose_by_tokens hangul.model _ _ H).
Defined.

(** X12: a hyphen marks the Jaeum that follows it and nothing else:
    before a rune that is not Hangul, that is no Jaeum or that is a Moeum,
    a hyphen changes nothing. *)
Theorem hyphen_before_other_rune (pkg : hangul.Package) (word1 word2 : list rune)
    (ch : rune) :
  hangul.IsHangul ch = false \/ hangul.IsJaeum ch = false \/ hangul.IsMoeum ch = true ->
  ComposeHangul (word1 ++ hyphen :: ch :: word2) = ComposeHangul (word1 ++ ch :: word2).
Proof.
  intros Hirr. apply ComposeHangul_tokens. unfold tokens.
  destruct (Z.eq_dec ch hyphen) as [->|Hch].
  - rewrite tokens_from_twice. reflexivity.
  - apply tokens_from_mark; assumption.
Qed.

Lemma hyphen_before_other_rune_witness :
  @hangul.IsMoeum hangul.model 0x314F = true /\
  @ComposeHangul hangul.model (runes "ㄱ" ++ hyphen :: 0x314F :: runes "-ㄴ")
  = @ComposeHangul hangul.model (runes "ㄱ" ++ 0x314F :: runes "-ㄴ").
Proof.
  split; [reflexivity|].
  exact (hyphen_before_other_rune hangul.model (runes "ㄱ") (runes "-ㄴ") 0x314F
           (or_intror (or_intror eq_refl))).
Defined.

(** X13: hyphens in a row count as one, and a hyphen at the end of the
    input is dropped. *)
Theorem hyphens_repeated_or_last (pkg : hangul.Package) (word1 word2 : list rune) :
  ComposeHangul (word1 ++ hyphen :: hyphen :: word2)
  = ComposeHangul (word1 ++ hyphen :: word2) /\
  ComposeHangul (word1 ++ [hyphen]) = ComposeHangul word1.
Proof.
  split; apply ComposeHangul_tokens; unfold tokens.
  - rewrite tokens_from_twice. reflexivity.
  - rewrite tokens_from_trail. reflexivity.
Qed.

(** ** Segments *)

Lemma read_runes_app rs X : forall t x f rs',
  read_runes t rs = (x, f, None, rs') ->
  read_runes t (rs ++ X) = (x, f, None, rs' ++ X).
Proof.
  induction rs as [|y rs IH]; intros t x f rs' H; cbn [read_runes app] in *;
    [discriminate|].
  destruct (y =? hyphen); [apply IH; exact H|].
  injection H as <- <- <-. reflexivity.
Qed.

Lemma read_runes_app_end rs ch w : forall t x f e rs',
  read_runes t rs = (x, f, Some e, rs') -> ch <> hyphen ->
  exists f', read_runes t (rs ++ ch :: w) = (ch, f', None, w).
Proof.
  induction rs as [|y rs IH]; intros t x f e rs' H Hch; cbn [read_runes app] in *.
  - destruct (Z.eqb_spec ch hyphen); [contradiction|]. eexists. reflexivity.
  - destruct (y =? hyphen); [eapply IH; eassumption | discriminate].
Qed.

Section Segments.

Context {pkg : hangul.Package}.

(** A pass reads the score of the pass before and nothing else of the
    two variables. *)
Lemma iteration_score c v w : score v = score w -> iteration c v = iteration c w.
Proof. intros H. unfold iteration. rewrite H. reflexivity. Qed.

Lemma write_empty c : lmt c = empty_slots -> write c = c.
Proof. intros H. unfold write. rewrite H. reflexivity. Qed.

(** With nothing buffered the score of the pass before does not matter. *)
Lemma finish_loop_score n : forall c v w,
  score v = score w \/ lmt c = empty_slots ->
  0 <= score v <= 2 -> 0 <= score w <= 2 ->
  finish (loop n c v) = finish (loop n c w).
Proof.
  induction n as [|n IH]; intros c v w H Hv Hw; [reflexivity|].
  destruct H as [H|H].
  { cbn [loop]. rewrite <- (iteration_score c v w H).
    pose proof (iteration_score_range c v Hv) as Hv'.
    destruct (iteration c v) as [[fl c'] v']. destruct fl; [|reflexivity].
    apply IH; auto. }
  assert (Hn : forall u, 0 <= score u <= 2 -> negb (score u =? -1) = true).
  { intros u Hu. destruct (Z.eqb_spec (score u) (-1)); [lia | reflexivity]. }
  destruct (read c) as [[[ch isTail] err] c1] eqn:Hr.
  destruct (read_spec _ _ _ _ _ Hr) as (Hb & Hl & _). rewrite H in Hl.
  assert (Ha : smart_attach c1 ch = None)
    by (apply smart_attach_no_lead; rewrite Hl; reflexivity).
  destruct err as [e|].
  { rewrite (loop_break _ _ _ _ _ (iteration_eof _ v _ _ _ _ Hr Ha)),
      (loop_break _ _ _ _ _ (iteration_eof _ w _ _ _ _ Hr Ha)).
    cbn [finish prevScore]. rewrite (Hn v Hv), (Hn w Hw). reflexivity. }
  destruct (hangul.IsHangul ch) eqn:Hh.
  2:{ rewrite (loop_continue _ _ _ _ _ (iteration_other _ v _ _ _ Hr Ha Hh)),
        (loop_continue _ _ _ _ _ (iteration_other _ w _ _ _ Hr Ha Hh)).
      rewrite (Hn v Hv), (Hn w Hw), (write_empty c1 Hl).
      apply IH; cbn [score lmt]; auto. }
  destruct (hangul.IsJaeum ch) eqn:Hj.
  { rewrite (loop_continue _ _ _ _ _ (iteration_jamo _ v _ _ _ Hr Ha Hh (or_introl Hj))),
      (loop_continue _ _ _ _ _ (iteration_jamo _ w _ _ _ Hr Ha Hh (or_introl Hj))).
    rewrite (write_empty c1 Hl).
    destruct (flushes _ _ _), (flushes _ _ _);
      (apply IH; cbn [score]; [left; reflexivity| |];
       destruct (jamo_score_range (hangul.IsMoeum ch) isTail) as [-> | [-> | ->]];
       unfold lead, medial, tail; lia). }
  destruct (hangul.IsMoeum ch) eqn:Hm.
  { rewrite (loop_continue _ _ _ _ _ (iteration_jamo _ v _ _ _ Hr Ha Hh (or_intror Hm))),
      (loop_continue _ _ _ _ _ (iteration_jamo _ w _ _ _ Hr Ha Hh (or_intror Hm))).
    rewrite (write_empty c1 Hl).
    destruct (flushes _ _ _), (flushes _ _ _);
      (apply IH; cbn [score]; [left; reflexivity| |];
       destruct (jamo_score_range (hangul.IsMoeum ch) isTail) as [-> | [-> | ->]];
       unfold lead, medial, tail; lia). }
  rewrite (loop_continue _ _ _ _ _ (iteration_composed _ v _ _ _ Hr Ha Hh Hj Hm)),
    (loop_continue _ _ _ _ _ (iteration_composed _ w _ _ _ Hr Ha Hh Hj Hm)).
  apply IH; cbn [score]; [left; reflexivity | unfold tail; lia | unfold tail; lia].
Qed.


Hypothesis Hout : hangul.splits_only_syllables pkg.

(** The passes over a segment are the same when more input follows; where
    the segment ends, the rune that follows flushes the buffer. *)
Lemma loop_prefix ch w :
  hangul.IsHangul ch = false -> ch <> hyphen -> hangul.is_syllable ch = false ->
  forall n rs b a v c' v',
    0 <= score v <= 2 ->
    loop n (Composer rs b a) v = Some (c', v') ->
    exists m, forall k,
      loop (m + k) (Composer (rs ++ ch :: w) b a) v
      = loop k (Composer w (buf c' ++ pending (lmt c') ++ [ch]) empty_slots)
          (Locals (score v') (-1)).
Proof.
  intros Hh Hch Hsyl. induction n as [|n IH]; intros rs b a v c' v' Hv H;
    [discriminate|].
  destruct (read_runes false rs) as [[[x t] err] rs'] eqn:Hrr.
  assert (Hr : read (Composer rs b a) = (x, t, err, Composer rs' b a)).
  { unfold read. cbn [r buf lmt]. rewrite Hrr. reflexivity. }
  destruct err as [e|].
  - destruct (read_spec _ _ _ _ _ Hr) as (_ & _ & [(_ & -> & _)|(D & _)]);
      [|discriminate].
    assert (Ha : smart_attach (Composer rs' b a) 0 = None)
      by (apply smart_attach_other, Hout; reflexivity).
    rewrite (loop_break _ _ _ _ _ (iteration_eof _ v _ _ _ _ Hr Ha)) in H.
    injection H as <- <-. exists 1%nat. intros k. cbn [Nat.add].
    destruct (read_runes_app_end rs ch w _ _ _ _ _ Hrr Hch) as [f' Hrr'].
    assert (Hr' : read (Composer (rs ++ ch :: w) b a) = (ch, f', None, Composer w b a)).
    { unfold read. cbn [r buf lmt]. rewrite Hrr'. reflexivity. }
    assert (Ha' : smart_attach (Composer w b a) ch = None)
      by (apply smart_attach_other, Hout, Hsyl).
    rewrite (loop_continue _ _ _ _ _ (iteration_other _ v _ _ _ Hr' Ha' Hh)).
    destruct (Z.eqb_spec (score v) (-1)); [lia|]. cbn [negb].
    rewrite write_eq. cbn [buf lmt r score]. rewrite <- app_assoc. reflexivity.
  - pose proof (read_runes_app rs (ch :: w) _ _ _ _ Hrr) as Hrr'.
    assert (Hr' : read (Composer (rs ++ ch :: w) b a)
                  = (x, t, None, Composer (rs' ++ ch :: w) b a)).
    { unfold read. cbn [r buf lmt]. rewrite Hrr'. reflexivity. }
    destruct (iteration_transport _ _ v _ _ _ _ _ [] Hr Hr' eq_refl eq_refl) as [E Er].
    pose proof (iteration_score_range (Composer rs b a) v Hv) as Hv1.
    pose proof (iteration_step (Composer rs b a) v) as St.
    cbn [loop] in H.
    destruct (iteration (Composer rs b a) v) as [[fl [rs1 b1 a1]] v1].
    cbn [fst snd r buf lmt app] in *. subst rs1.
    destruct fl.
    + destruct (IH _ _ _ _ _ _ Hv1 H) as [m Hm]. exists (S m). intros k.
      cbn [Nat.add]. rewrite (loop_continue _ _ _ _ _ E). apply Hm.
    + exfalso. inversion St as [| ? ? ? ? Hr2 ? | | |]; subst.
      rewrite Hr in Hr2. discriminate.
Qed.

End Segments.

(** X14: a rune that is not Hangul separates the input into segments
    that are composed one by one: the result on a word, such a rune and a
    second word is the result on the first word, the rune and the result
    on the second word. *)
Theorem compose_segments (pkg : hangul.Package) :
  hangul.splits_only_syllables pkg -> hangul.classifies_syllables pkg ->
  forall word1 ch word2,
    hangul.IsHangul ch = false -> ch <> hyphen ->
    exists out1 out2,
      ComposeHangul word1 = Some out1 /\ ComposeHangul word2 = Some out2 /\
      ComposeHangul (word1 ++ ch :: word2) = Some (out1 ++ ch :: out2).
Proof.
  intros Hout Hcls word1 ch word2 Hh Hch.
  assert (Hsyl : hangul.is_syllable ch = false).
  { destruct (hangul.is_syllable ch) eqn:E; [|reflexivity].
    destruct (Hcls ch E) as [Hh' _]. rewrite Hh in Hh'. discriminate. }
  destruct (loop_terminates Hout (length word1 + 2) (Composer word1 [] empty_slots)
              (Locals 0 0)) as [[c1 v1] E1]; [cbn [r]; lia|].
  destruct (loop_terminates Hout (length word2 + 2) (Composer word2 [] empty_slots)
              (Locals 0 0)) as [[c2 v2] E2]; [cbn [r]; lia|].
  destruct (loop_score_range _ _ _ _ _ E1) as [Hs1 Hp1]; [cbn; lia|].
  destruct (loop_score_range _ _ _ _ _ E2) as [Hs2 Hp2]; [cbn; lia|].
  assert (Hn : forall u, 0 <= prevScore u <= 2 -> negb (prevScore u =? -1) = true).
  { intros u Hu. destruct (Z.eqb_spec (prevScore u) (-1)); [lia | reflexivity]. }
  exists (buf c1 ++ pending (lmt c1)), (buf c2 ++ pending (lmt c2)).
  split; [|split].
  - rewrite ComposeHangul_finish, E1. cbn [finish]. rewrite Hn by lia.
    rewrite write_eq. reflexivity.
  - rewrite ComposeHangul_finish, E2. cbn [finish]. rewrite Hn by lia.
    rewrite write_eq. reflexivity.
  - assert (H0 : 0 <= score (Locals 0 0) <= 2) by (cbn; lia).
    destruct (loop_prefix Hout ch word2 Hh Hch Hsyl _ _ _ _ _ _ _ H0 E1) as [m Hm].
    assert (F2 : finish (loop (length word2 + 2) (Composer word2 [] empty_slots)
                           (Locals (score v1) (-1)))
                 = Some (buf c2 ++ pending (lmt c2))).
    { rewrite (finish_loop_score _ _ _ (Locals 0 0));
        [|right; reflexivity|cbn [score]; lia|cbn [score]; lia].
      rewrite E2. cbn [finish]. rewrite Hn by lia. rewrite write_eq. reflexivity. }
    pose proof (finish_frame (length word2 + 2) word2
                  (buf c1 ++ pending (lmt c1) ++ [ch]) [] empty_slots
                  (Locals (score v1) (-1))) as F.
    rewrite F2, app_nil_r, <- Hm in F.
    destruct (loop (m + (length word2 + 2)) _ _) as [x|] eqn:E; [|discriminate].
    apply loop_fuel_enough in E. rewrite ComposeHangul_finish. cbn [r] in E.
    rewrite E, F, <- !app_assoc. reflexivity.
Qed.

Lemma compose_segments_witness :
  exists out1 out2,
    @ComposeHangul hangul.model (runes "ㅎㅏ-ㄴ") = Some out1 /\
    @ComposeHangul hangul.model (runes "-ㄱㅡ-ㄹ!") = Some out2 /\
    @ComposeHangul hangul.model (runes "ㅎㅏ-ㄴ" ++ 32 :: runes "-ㄱㅡ-ㄹ!")
    = Some (out1 ++ 32 :: out2).
Proof.
  exact (compose_segments hangul.model model_splits_only_syllables
           model_classifies_syllables (runes "ㅎㅏ-ㄴ") 32 (runes "-ㄱㅡ-ㄹ!")
           eq_refl ltac:(discriminate)).
Defined.

(** * Further properties of package [english] *)

Section TransliterateFields.

Variable IsSpace : rune -> bool.
Variable ToLower : list rune -> list rune.
Variable loaded : gmap (list rune) (list rune).

(** [Transliterate] works field by field. *)
Lemma Transliterate_fields (g : english.globals) (word : list rune) :
  english.Transliterate IsSpace ToLower loaded g word
  = (english.Join
       (map (english.field_result ToLower (english.dict (english.load loaded g)))
            (english.Fields IsSpace word)) [32],
     None, english.load loaded g).
Proof.
  unfold english.Transliterate. f_equal. f_equal. f_equal.
  set (d := english.dict (english.load loaded g)).
  enough (G : forall l acc,
             fold_left
               (fun result w =>
                  match d !! ToLower (english.Trim w english.cutset) with
                  | Some phonetic => result ++ [phonetic]
                  | None => result ++ [w]
                  end) l acc
             = acc ++ map (english.field_result ToLower d) l) by apply (G _ []).
  induction l as [|w l IH]; intros acc; cbn [fold_left map].
  - rewrite app_nil_r. reflexivity.
  - rewrite IH. unfold english.field_result at 2.
    destruct (d !! _); rewrite <- app_assoc; reflexivity.
Qed.

(** A word without white space is its own single field. *)
Lemma fields_cons_end w :
  w <> [] -> Forall (fun ch => IsSpace ch = false) w ->
  english.fields IsSpace [] w = [w].
Proof.
  intros Hne Hw.
  enough (G : forall field, field ++ w <> [] ->
                            english.fields IsSpace field w = [field ++ w])
    by (apply (G []); exact Hne).
  clear Hne. induction Hw as [|ch w Hch _ IH]; intros field Hf.
  - rewrite app_nil_r in *. destruct field; [contradiction | reflexivity].
  - cbn [english.fields]. rewrite Hch, IH.
    + rewrite <- app_assoc. reflexivity.
    + destruct field; discriminate.
Qed.

(** A field, a space and more text: the field comes first. *)
Lemma fields_cons w sp rest : forall field,
  Forall (fun ch => IsSpace ch = false) w -> IsSpace sp = true ->
  field ++ w <> [] ->
  english.fields IsSpace field (w ++ sp :: rest)
  = (field ++ w) :: english.fields IsSpace [] rest.
Proof.
  induction w as [|ch w IH]; intros field Hw Hsp Hne.
  - rewrite app_nil_r in *. cbn [app english.fields]. rewrite Hsp.
    destruct field; [contradiction | reflexivity].
  - inversion Hw as [|? ? Hch Hw']; subst. cbn [app english.fields]. rewrite Hch.
    rewrite IH; try assumption.
    + rewrite <- app_assoc. reflexivity.
    + destruct field; discriminate.
Qed.

(** X15: when no field of the input is in the dictionary,
    [Transliterate] returns the fields joined by single spaces: the words
    as they are, the white space around and between them normalised. *)
Theorem transliterate_all_miss (g : english.globals) (word : list rune) :
  Forall (fun w => english.dict (english.load loaded g)
                     !! ToLower (english.Trim w english.cutset) = None)
         (english.Fields IsSpace word) ->
  english.Transliterate IsSpace ToLower loaded g word
  = (english.Join (english.Fields IsSpace word) [32], None, english.load loaded g).
Proof.
  intros Hmiss. rewrite Transliterate_fields. f_equal. f_equal. f_equal.
  induction Hmiss as [|w l Hw _ IH]; [reflexivity|].
  cbn [map]. rewrite IH. unfold english.field_result. rewrite Hw. reflexivity.
Qed.

Lemma transliterate_hit_at (g : english.globals) (word phonetic : list rune) :
  word <> [] -> Forall (fun ch => IsSpace ch = false) word ->
  english.dict (english.load loaded g)
    !! ToLower (english.Trim word english.cutset) = Some phonetic ->
  english.Transliterate IsSpace ToLower loaded g word
  = (phonetic, None, english.load loaded g).
Proof.
  intros Hne Hword Hhit. rewrite Transliterate_fields. unfold english.Fields.
  rewrite (fields_cons_end word) by assumption.
  cbn [map english.Join]. unfold english.field_result. rewrite Hhit. reflexivity.
Qed.

(** X16: a word without white space whose trimmed, lower-cased form is a
    key of the dictionary is replaced by the phonetic representation
    alone: the punctuation trimmed for the lookup is not given back. *)
Theorem transliterate_hit (g : english.globals) (word phonetic : list rune) :
  word <> [] -> Forall (fun ch => IsSpace ch = false) word ->
  english.dict (english.load loaded g)
    !! ToLower (english.Trim word english.cutset) = Some phonetic ->
  english.Transliterate IsSpace ToLower loaded g word
  = (phonetic, None, english.load loaded g).
Proof. apply transliterate_hit_at. Qed.

(** X17: [Transliterate] goes word by word: for a first word, a space
    and more text, the output is the output for the word, then, when the
    rest holds a word, one space and the output for the rest. *)
Theorem transliterate_first_word (g : english.globals) (w rest : list rune) (sp : rune) :
  w <> [] -> Forall (fun ch => IsSpace ch = false) w -> IsSpace sp = true ->
  let out x := fst (fst (english.Transliterate IsSpace ToLower loaded g x)) in
  (english.Fields IsSpace rest = [] -> out (w ++ sp :: rest) = out w) /\
  (english.Fields IsSpace rest <> [] ->
   out (w ++ sp :: rest) = out w ++ [32] ++ out rest).
Proof.
  intros Hne Hw Hsp out. unfold out. rewrite !Transliterate_fields. cbn [fst].
  unfold english.Fields. rewrite (fields_cons w sp rest []) by assumption.
  rewrite (fields_cons_end w) by assumption. cbn [app map english.Join].
  split; intros Hrest.
  - unfold english.Fields in Hrest. rewrite Hrest. reflexivity.
  - unfold english.Fields in Hrest.
    destruct (english.fields IsSpace [] rest) as [|x l]; [contradiction|].
    reflexivity.
Qed.

End TransliterateFields.

Lemma transliterate_all_miss_witness :
  english.Transliterate english.ascii_space english.ascii_lower
    {[ runes "hello" := runes "HHAHLOW" ]}
    (english.Globals ∅ false) (runes "  good   bye ")
  = (runes "good bye", None,
     english.Globals {[ runes "hello" := runes "HHAHLOW" ]} true).
Proof.
  apply (transliterate_all_miss english.ascii_space english.ascii_lower
           {[ runes "hello" := runes "HHAHLOW" ]} (english.Globals ∅ false)
           (runes "  good   bye ")).
  repeat constructor; apply lookup_singleton_ne; vm_compute; discriminate.
Defined.

Lemma transliterate_hit_witness :
  english.Transliterate english.ascii_space english.ascii_lower
    {[ runes "hello" := runes "HHAHLOW" ]}
    (english.Globals ∅ false) (runes "(Hello!)")
  = (runes "HHAHLOW", None,
     english.Globals {[ runes "hello" := runes "HHAHLOW" ]} true).
Proof.
  apply (transliterate_hit english.ascii_space english.ascii_lower
           {[ runes "hello" := runes "HHAHLOW" ]} (english.Globals ∅ false)
           (runes "(Hello!)") (runes "HHAHLOW")).
  - discriminate.
  - repeat constructor.
  - apply lookup_singleton_eq.
Defined.

Lemma transliterate_first_word_witness :
  let out x :=
    fst (fst (english.Transliterate english.ascii_space english.ascii_lower
                {[ runes "hello" := runes "HHAHLOW" ]} (english.Globals ∅ false) x)) in
  out (runes "Hello, world") = out (runes "Hello,") ++ [32] ++ out (runes "world").
Proof.
  exact (proj2 (transliterate_first_word english.ascii_space english.ascii_lower
                  {[ runes "hello" := runes "HHAHLOW" ]} (english.Globals ∅ false)
                  (runes "Hello,") (runes "world") 32
                  ltac:(discriminate) ltac:(repeat constructor) eq_refl)
           ltac:(discriminate)).
Defined.

(** ** Loading the dictionary *)

Section LoadDictionary.

Variable ToLower : list rune -> list rune.

Lemma Replace_stressless pron :
  Forall (fun ch => ch <> 48 /\ ch <> 49 /\ ch <> 50 /\ ch <> 32) (english.Replace pron).
Proof.
  unfold english.Replace. induction pron as [|ch pron IH]; [constructor|].
  cbn [List.filter]. destruct (english.stressless ch) eqn:E; [|exact IH].
  constructor; [|exact IH]. unfold english.stressless in E. lia.
Qed.

Lemma fold_add_line_invariant (P : gmap (list rune) (list rune) -> Prop) :
  (forall d line, P d -> P (english.add_line ToLower d line)) ->
  forall lines d, P d -> P (fold_left (english.add_line ToLower) lines d).
Proof.
  intros Hstep. induction lines as [|line lines IH]; intros d Hd; [exact Hd|].
  cbn [fold_left]. apply IH, Hstep, Hd.
Qed.

(** X18: no pronunciation that [loadDictionary] stores holds a stress
    digit 0, 1, 2 or a space, whatever the lines. *)
Theorem load_pronunciations_stressless
    (lines : list (list rune)) (scanErr : option english.error)
    (word pron : list rune) :
  fst (english.loadDictionary ToLower lines scanErr) !! word = Some pron ->
  Forall (fun ch => ch <> 48 /\ ch <> 49 /\ ch <> 50 /\ ch <> 32) pron.
Proof.
  unfold english.loadDictionary. cbn [fst]. revert word pron.
  apply (fold_add_line_invariant
           (fun d => forall word pron, d !! word = Some pron ->
              Forall (fun ch => ch <> 48 /\ ch <> 49 /\ ch <> 50 /\ ch <> 32) pron)).
  - intros d line Hd word pron. unfold english.add_line.
    destruct (english.HasPrefix line _); [apply Hd|].
    destruct (english.SplitN2 line _) as [|w [|p [|x l]]]; try apply Hd.
    rewrite lookup_insert. case_decide.
    + intros [= <-]. apply Replace_stressless.
    + apply Hd.
  - intros word pron H. rewrite lookup_empty in H. discriminate.
Qed.

(** X19: a comment line (one that starts with three semicolons) and a
    line without two spaces in a row leave the dictionary as it is, where
    ever they stand among the lines. *)
Theorem load_skips_line
    (before after : list (list rune)) (line : list rune)
    (scanErr : option english.error) :
  english.HasPrefix line [59; 59; 59] = true \/ english.Cut line [32; 32] = None ->
  english.loadDictionary ToLower (before ++ line :: after) scanErr
  = english.loadDictionary ToLower (before ++ after) scanErr.
Proof.
  intros Hline. unfold english.loadDictionary. f_equal.
  rewrite !fold_left_app. cbn [fold_left]. f_equal.
  unfold english.add_line, english.SplitN2.
  destruct Hline as [-> | ->]; [reflexivity|].
  destruct (english.HasPrefix line _); reflexivity.
Qed.

Lemma HasPrefix_nil s : english.HasPrefix s [] = true.
Proof. destruct s; reflexivity. Qed.

Lemma HasPrefix_comment_app w rest :
  english.HasPrefix w [59; 59; 59] = false ->
  english.HasPrefix (w ++ 32 :: rest) [59; 59; 59] = false.
Proof.
  pose proof HasPrefix_nil as Hnil.
  destruct w as [|a [|b [|c w]]]; cbn [app english.HasPrefix]; intros H.
  - reflexivity.
  - destruct (a =? 59); reflexivity.
  - destruct (a =? 59), (b =? 59); reflexivity.
  - rewrite Hnil in *. exact H.
Qed.

Lemma Cut_entry w pron :
  Forall (fun ch => ch <> 32) w ->
  english.Cut (w ++ [32; 32] ++ pron) [32; 32] = Some (w, pron).
Proof.
  induction 1 as [|ch w Hch _ IH].
  { cbn [app english.Cut english.HasPrefix]. rewrite HasPrefix_nil. reflexivity. }
  cbn [app english.Cut english.HasPrefix].
  destruct (Z.eqb_spec ch 32); [contradiction|]. cbn [andb].
  cbn [app] in IH. rewrite IH. reflexivity.
Qed.

(** The last line of the dictionary, when it is an entry, sets the
    pronunciation of its word. *)
Lemma load_last_entry lines w pron scanErr :
  Forall (fun ch => ch <> 32) w -> english.HasPrefix w [59; 59; 59] = false ->
  fst (english.loadDictionary ToLower (lines ++ [w ++ [32; 32] ++ pron]) scanErr)
    !! ToLower w = Some (english.Replace pron).
Proof.
  intros Hw Hc. unfold english.loadDictionary. cbn [fst].
  rewrite fold_left_app. cbn [fold_left].
  set (d := fold_left _ lines ∅). unfold english.add_line.
  pose proof (HasPrefix_comment_app w (32 :: pron) Hc) as E1.
  pose proof (Cut_entry w pron Hw) as E2. unfold english.SplitN2.
  cbn [app] in *. unfold rune in *. rewrite E1, E2.
  apply lookup_insert_eq.
Qed.

(** X20: an entry line, a word without spaces, two spaces and a
    pronunciation, that comes last among the lines decides what
    [Transliterate] returns for every spelling of the word: the
    pronunciation without its stress digits and spaces. *)
Theorem load_then_transliterate
    (IsSpace : rune -> bool) (lines : list (list rune))
    (scanErr : option english.error) (w pron x : list rune) :
  Forall (fun ch => ch <> 32) w -> english.HasPrefix w [59; 59; 59] = false ->
  x <> [] -> Forall (fun ch => IsSpace ch = false) x ->
  ToLower (english.Trim x english.cutset) = ToLower w ->
  fst (fst (english.Transliterate IsSpace ToLower
              (fst (english.loadDictionary ToLower
                      (lines ++ [w ++ [32; 32] ++ pron]) scanErr))
              (english.Globals ∅ false) x))
  = english.Replace pron.
Proof.
  intros Hw Hc Hx Hsp Hkey.
  rewrite (transliterate_hit_at IsSpace ToLower _ (english.Globals ∅ false) x
             (english.Replace pron) Hx Hsp); [reflexivity|].
  cbn [english.load english.once english.dict]. rewrite Hkey.
  apply load_last_entry; assumption.
Qed.

End LoadDictionary.

Lemma load_pronunciations_stressless_witness :
  fst (english.loadDictionary english.ascii_lower
         [runes ";;; a comment"; runes "HELLO  HH AH0 L OW1"] None)
    !! runes "hello" = Some (runes "HHAHLOW") /\
  Forall (fun ch => ch <> 48 /\ ch <> 49 /\ ch <> 50 /\ ch <> 32) (runes "HHAHLOW").
Proof.
  assert (H : fst (english.loadDictionary english.ascii_lower
                     [runes ";;; a comment"; runes "HELLO  HH AH0 L OW1"] None)
                !! runes "hello" = Some (runes "HHAHLOW"))
    by (vm_compute; reflexivity).
  split; [exact H|].
  exact (load_pronunciations_stressless english.ascii_lower _ _ _ _ H).
Defined.

Lemma load_skips_line_witness :
  english.loadDictionary english.ascii_lower
    [runes "A  AH0"; runes ";;; B  B IY1"; runes "no separator"; runes "C  S IY1"] None
  = english.loadDictionary english.ascii_lower
      [runes "A  AH0"; runes "no separator"; runes "C  S IY1"] None /\
  english.loadDictionary english.ascii_lower
    [runes "A  AH0"; runes "no separator"; runes "C  S IY1"] None
  = english.loadDictionary english.ascii_lower
      [runes "A  AH0"; runes "C  S IY1"] None.
Proof.
  split.
  - exact (load_skips_line english.ascii_lower [runes "A  AH0"]
             [runes "no separator"; runes "C  S IY1"] (runes ";;; B  B IY1") None
             (or_introl eq_refl)).
  - exact (load_skips_line english.ascii_lower [runes "A  AH0"]
             [runes "C  S IY1"] (runes "no separator") None (or_intror eq_refl)).
Defined.

Lemma load_then_transliterate_witness :
  fst (fst (english.Transliterate english.ascii_space english.ascii_lower
              (fst (english.loadDictionary english.ascii_lower
                      ([runes ";;; cmudict"; runes "HELLO  HH EH1 L OW0"]
                       ++ [runes "HELLO" ++ [32; 32] ++ runes "HH AH0 L OW1"]) None))
              (english.Globals ∅ false) (runes "Hello!")))
  = runes "HHAHLOW".
Proof.
  exact (load_then_transliterate english.ascii_lower english.ascii_space
           [runes ";;; cmudict"; runes "HELLO  HH EH1 L OW0"] None
           (runes "HELLO") (runes "HH AH0 L OW1") (runes "Hello!")
           ltac:(repeat constructor; discriminate) eq_refl ltac:(discriminate)
           ltac:(repeat constructor) eq_refl).
Defined.
